(** * Flying game (my-app/app/page.tsx): the frame-update core

    A shallow embedding of the game loop of [FlyingGame]: the refs
    ([playerRef], [pipesRef], [bulletsRef], [frameCountRef]), the React
    state ([gameState], [score], [highScore]), the two commands [jump] and
    [shoot], and one [gameLoop] frame.

    Modelling conventions.
    - A JavaScript number that carries a coordinate is an exact rational
      ([Q]); rounding of binary floating point is not modelled.  The
      constant 0.4 is the rational 2/5.  The operators [+], [-] and [*] of
      the program are the rational operations with the result in lowest
      terms ([numAdd], [numSub], [numMul]).  Statements are made operation
      by operation, as the program computes; no closed form of a sum of
      many steps is claimed.
    - The counters ([score], [highScore], [frameCountRef]) only ever hold
      small non-negative integers; they are integers ([Z]), and [%] is
      [Z.rem].
    - [Math.random()] is an input of the frame: the value it would return
      if the frame asks for it.
    - A React setter does not change the value the running closure sees:
      [gameLoop] reads the [gameState], [score] and [highScore] captured by
      the last render and queues its updates; the queue is applied, in
      order, when the frame is over.  [setScore (s => s + n)] is the
      queued update [AddScore n].
    - Drawing does not change the state and is left out. *)

From Stdlib Require Import String QArith Qminmax ZArith List Bool Lia Lqa.
Import ListNotations.

Open Scope Q_scope.

(** ** Numbers *)

(** The arithmetic of the program: the rational operation, the result in
    lowest terms. From here on [+], [-] and [*] on numbers are these. *)
Definition numAdd (a b : Q) : Q := Qred (Qplus a b).
Definition numSub (a b : Q) : Q := Qred (Qminus a b).
Definition numMul (a b : Q) : Q := Qred (Qmult a b).

Arguments numAdd : simpl never.
Arguments numSub : simpl never.
Arguments numMul : simpl never.

#[warnings="-notation-overridden"]
Infix "+" := numAdd : Q_scope.
#[warnings="-notation-overridden"]
Infix "-" := numSub : Q_scope.
#[warnings="-notation-overridden"]
Infix "*" := numMul : Q_scope.

(** ** Game constants *)

Definition GAME_WIDTH : Q := 400.
Definition GAME_HEIGHT : Q := 600.
Definition GRAVITY : Q := 2 # 5.
Definition JUMP_STRENGTH : Q := -8.
Definition BULLET_SPEED : Q := 8.
Definition PIPE_SPEED : Q := 2.
Definition PIPE_SPAWN_RATE : Z := 150.

(** The two score increments of [gameLoop]: [s + 1] for a passed pipe,
    [s + 2] for a destroyed one. *)
Definition PASS_POINTS : Z := 1.
Definition BONUS_POINTS : Z := 2.

(** ** Comparisons of numbers, as booleans *)

Definition Qltb (a b : Q) : bool := negb (Qle_bool b a).
Definition Qgtb (a b : Q) : bool := Qltb b a.

Infix "<?" := Qltb (at level 70, no associativity) : Q_scope.
Infix ">?" := Qgtb (at level 70, no associativity) : Q_scope.

(** ** Entities *)

Record Pipe := mkPipe {
  pipe_x : Q;
  topHeight : Q;
  gap : Q;
  passed : bool
}.

Record Bullet := mkBullet {
  bullet_x : Q;
  bullet_y : Q;
  active : bool
}.

Record Player := mkPlayer {
  player_x : Q;
  player_y : Q;
  velocity : Q;
  rotation : Q
}.

Record Rect := mkRect { rect_x : Q; rect_y : Q; rect_w : Q; rect_h : Q }.

Inductive GameState := start | playing | gameOver.

Definition GameState_eqb (a b : GameState) : bool :=
  match a, b with
  | start, start | playing, playing | gameOver, gameOver => true
  | _, _ => false
  end.

(** ** The world: React state and refs *)

Record World := mkWorld {
  gameState : GameState;
  score : Z;
  highScore : Z;
  playerRef : Player;
  pipesRef : list Pipe;
  bulletsRef : list Bullet;
  frameCountRef : Z
}.

Definition defaultPlayer : Player := mkPlayer 80 250 0 0.

Definition initialWorld : World :=
  mkWorld start 0 0 defaultPlayer [] [] 0.

(** ** Queued React updates *)

Inductive Update :=
| SetGameState (g : GameState)
| SetHighScore (n : Z)
| AddScore (n : Z).

Definition applyUpdate (w : World) (u : Update) : World :=
  match u with
  | SetGameState g =>
      mkWorld g (score w) (highScore w) (playerRef w) (pipesRef w)
        (bulletsRef w) (frameCountRef w)
  | SetHighScore n =>
      mkWorld (gameState w) (score w) n (playerRef w) (pipesRef w)
        (bulletsRef w) (frameCountRef w)
  | AddScore n =>
      mkWorld (gameState w) (score w + n)%Z (highScore w) (playerRef w)
        (pipesRef w) (bulletsRef w) (frameCountRef w)
  end.

Definition commit (us : list Update) (w : World) : World :=
  fold_left applyUpdate us w.

(** ** checkCollision *)

Definition checkCollision (a b : Rect) : bool :=
  (rect_x a <? rect_x b + rect_w b) &&
  (rect_x a + rect_w a >? rect_x b) &&
  (rect_y a <? rect_y b + rect_h b) &&
  (rect_y a + rect_h a >? rect_y b).

Definition playerHitbox (p : Player) : Rect :=
  mkRect (player_x p - 15) (player_y p - 15) 30 30.

Definition bulletHitbox (b : Bullet) : Rect :=
  mkRect (bullet_x b - 5) (bullet_y b - 3) 10 6.

Definition topPipe (p : Pipe) : Rect :=
  mkRect (pipe_x p) 0 50 (topHeight p).

Definition bottomPipe (p : Pipe) : Rect :=
  mkRect (pipe_x p) (topHeight p + gap p) 50 GAME_HEIGHT.

(** [checkCollision(playerHitbox, topPipe) || checkCollision(playerHitbox, bottomPipe)] *)
Definition playerHitsPipe (pl : Player) (p : Pipe) : bool :=
  checkCollision (playerHitbox pl) (topPipe p) ||
  checkCollision (playerHitbox pl) (bottomPipe p).

(** [checkCollision(bulletHitbox, topPipe) || checkCollision(bulletHitbox, bottomPipe)] *)
Definition bulletHitsPipe (b : Bullet) (p : Pipe) : bool :=
  checkCollision (bulletHitbox b) (topPipe p) ||
  checkCollision (bulletHitbox b) (bottomPipe p).

(** ** resetGame, jump, shoot *)

Definition resetGame (w : World) : World :=
  mkWorld (gameState w) 0 (highScore w) (mkPlayer 80 250 0 0) [] [] 0.

Definition setVelocity (v : Q) (p : Player) : Player :=
  mkPlayer (player_x p) (player_y p) v (rotation p).

Definition setPlayer (p : Player) (w : World) : World :=
  mkWorld (gameState w) (score w) (highScore w) p (pipesRef w)
    (bulletsRef w) (frameCountRef w).

Definition jump (w : World) : World :=
  match gameState w with
  | start =>
      applyUpdate (setPlayer (setVelocity JUMP_STRENGTH (playerRef w)) w)
        (SetGameState playing)
  | playing => setPlayer (setVelocity JUMP_STRENGTH (playerRef w)) w
  | gameOver => applyUpdate (resetGame w) (SetGameState start)
  end.

Definition shoot (w : World) : World :=
  match gameState w with
  | playing =>
      let player := playerRef w in
      mkWorld (gameState w) (score w) (highScore w) (playerRef w)
        (pipesRef w)
        (bulletsRef w ++ [mkBullet (player_x player + 20) (player_y player + 10) true])
        (frameCountRef w)
  | _ => w
  end.

(** ** gameLoop, stage by stage *)

(** [player.velocity += GRAVITY; player.y += player.velocity;
     player.rotation = Math.min(Math.max(player.velocity * 3, -30), 45)] *)
Definition applyGravity (p : Player) : Player :=
  let v := velocity p + GRAVITY in
  let y := player_y p + v in
  mkPlayer (player_x p) y v (Qmin (Qmax (v * 3) (-30)) 45).

(** The updates of one detected collision:
    [setGameState('gameOver'); if (score > highScore) setHighScore(score)],
    with the [score] and [highScore] the closure captured. *)
Definition gameOverUpdates (sc hs : Z) : list Update :=
  SetGameState gameOver :: (if (sc >? hs)%Z then [SetHighScore sc] else []).

(** [player.y > GAME_HEIGHT - 40 || player.y < 0] *)
Definition outOfBounds (p : Player) : bool :=
  (player_y p >? GAME_HEIGHT - 40) || (player_y p <? 0).

Definition checkBounds (sc hs : Z) (p : Player) : list Update :=
  if outOfBounds p then gameOverUpdates sc hs else [].

(** The pipe pushed by the spawner; [rnd] is the value of [Math.random()]. *)
Definition newPipe (rnd : Q) : Pipe :=
  let minHeight := 50 in
  let maxHeight := GAME_HEIGHT - 200 in
  mkPipe GAME_WIDTH (rnd * (maxHeight - minHeight) + minHeight) 120 false.

(** [frameCountRef.current++; if (frameCountRef.current % PIPE_SPAWN_RATE === 0) push] ;
    the argument is the counter after the increment. *)
Definition spawnPipes (rnd : Q) (frameCount : Z) (pipes : list Pipe) : list Pipe :=
  if (Z.rem frameCount PIPE_SPAWN_RATE =? 0)%Z then pipes ++ [newPipe rnd] else pipes.

(** The callback of [pipesRef.current.filter]: the pipe after its mutation,
    the updates it queues, and the value it returns. *)
Definition movePipe (p : Pipe) : Pipe :=
  mkPipe (pipe_x p - PIPE_SPEED) (topHeight p) (gap p) (passed p).

Definition justPassed (player : Player) (p : Pipe) : bool :=
  negb (passed p) && (pipe_x p + 50 <? player_x player).

Definition markPassed (p : Pipe) : Pipe :=
  mkPipe (pipe_x p) (topHeight p) (gap p) true.

Definition pipeCallback (sc hs : Z) (player : Player) (p : Pipe)
  : Pipe * list Update * bool :=
  let p1 := movePipe p in
  let us1 := if playerHitsPipe player p1 then gameOverUpdates sc hs else [] in
  let '(p2, us2) :=
    if justPassed player p1 then (markPassed p1, [AddScore 1]) else (p1, []) in
  (p2, us1 ++ us2, pipe_x p2 >? -60).

Fixpoint updatePipes (sc hs : Z) (player : Player) (pipes : list Pipe)
  : list Pipe * list Update :=
  match pipes with
  | [] => ([], [])
  | p :: rest =>
      let '(p', us, keep) := pipeCallback sc hs player p in
      let '(rest', us') := updatePipes sc hs player rest in
      ((if keep then p' :: rest' else rest'), us ++ us')
  end.

(** The inner [pipesRef.current.filter] of one bullet: the pipes that stay,
    the updates queued, and the final value of [hit]. *)
Fixpoint hitPipes (b : Bullet) (pipes : list Pipe)
  : list Pipe * list Update * bool :=
  match pipes with
  | [] => ([], [], false)
  | p :: rest =>
      let '(rest', us, hit) := hitPipes b rest in
      if bulletHitsPipe b p
      then (rest', AddScore 2 :: us, true)
      else (p :: rest', us, hit)
  end.

Definition moveBullet (b : Bullet) : Bullet :=
  mkBullet (bullet_x b + BULLET_SPEED) (bullet_y b) (active b).

(** The outer [bulletsRef.current.filter]; [pipes] is [pipesRef.current],
    read and reassigned by every callback. *)
Fixpoint updateBullets (bullets : list Bullet) (pipes : list Pipe)
  : list Bullet * list Pipe * list Update :=
  match bullets with
  | [] => ([], pipes, [])
  | b :: rest =>
      let b' := moveBullet b in
      let '(pipes1, us, hit) := hitPipes b' pipes in
      let keep := (bullet_x b' <? GAME_WIDTH) && negb hit in
      let '(rest', pipes2, us') := updateBullets rest pipes1 in
      ((if keep then b' :: rest' else rest'), pipes2, us ++ us')
  end.

(** The refs after a frame in the playing state and the updates it queued,
    in the order of the calls. *)
Definition gameLoopBody (rnd : Q) (w : World) : World * list Update :=
  let sc := score w in
  let hs := highScore w in
  let player := applyGravity (playerRef w) in
  let us0 := checkBounds sc hs player in
  let frameCount := (frameCountRef w + 1)%Z in
  let pipes0 := spawnPipes rnd frameCount (pipesRef w) in
  let '(pipes1, us1) := updatePipes sc hs player pipes0 in
  let '(bullets2, pipes2, us2) := updateBullets (bulletsRef w) pipes1 in
  (mkWorld (gameState w) sc hs player pipes2 bullets2 frameCount,
   us0 ++ us1 ++ us2).

Definition gameLoop (rnd : Q) (w : World) : World :=
  match gameState w with
  | playing => let '(w', us) := gameLoopBody rnd w in commit us w'
  | _ => w
  end.

(** ** Runs: frames and commands from the first render on *)

Inductive Event :=
| Frame (rnd : Q)
| Jump
| Shoot.

Definition step (w : World) (e : Event) : World :=
  match e with
  | Frame rnd => gameLoop rnd w
  | Jump => jump w
  | Shoot => shoot w
  end.

Definition run (es : list Event) : World := fold_left step es initialWorld.

(** * Vocabulary of the properties *)

(** ** What a queue of updates does when it is committed *)

Definition stateAfter (us : list Update) (g : GameState) : GameState :=
  fold_left (fun g u => match u with SetGameState g' => g' | _ => g end) us g.

Definition highAfter (us : list Update) (h : Z) : Z :=
  fold_left (fun h u => match u with SetHighScore n => n | _ => h end) us h.

Definition scoreDelta (us : list Update) : Z :=
  fold_right (fun u acc => match u with AddScore n => (n + acc)%Z | _ => acc end) 0%Z us.

(** ** The pass over the pipes *)

(** The pipe a callback of the first [filter] leaves behind: moved, and
    marked when it has just been passed. *)
Definition scrollPipe (player : Player) (p : Pipe) : Pipe :=
  let p1 := movePipe p in
  if justPassed player p1 then markPassed p1 else p1.

Definition onScreen (p : Pipe) : bool := pipe_x p >? -60.

Definition pipeUpdates (sc hs : Z) (player : Player) (p : Pipe) : list Update :=
  (if playerHitsPipe player (movePipe p) then gameOverUpdates sc hs else []) ++
  (if justPassed player (movePipe p) then [AddScore 1] else []).

(** Number of pipes a frame marks as passed. *)
Definition passedNow (player : Player) (pipes : list Pipe) : nat :=
  length (filter (justPassed player) (map movePipe pipes)).

(** Does the player, after its move, hit one of the moved pipes? *)
Definition hitsSomePipe (player : Player) (pipes : list Pipe) : bool :=
  existsb (playerHitsPipe player) (map movePipe pipes).

(** ** The pass over the bullets *)

(** The updates of [n] pipes hit by one bullet. *)
Definition bonusUpdates (n : nat) : list Update := repeat (AddScore 2) n.

(** Is the pipe hit by one of the bullets, after their move? *)
Definition destroyed (bullets : list Bullet) (p : Pipe) : bool :=
  existsb (fun b => bulletHitsPipe (moveBullet b) p) bullets.

(** ** One frame in the playing state, field by field *)

Definition movedPlayer (w : World) : Player := applyGravity (playerRef w).

(** [pipesRef.current] after the spawner. *)
Definition spawned (rnd : Q) (w : World) : list Pipe :=
  spawnPipes rnd (frameCountRef w + 1) (pipesRef w).

(** [pipesRef.current] after the pass over the pipes. *)
Definition scrolledPipes (rnd : Q) (w : World) : list Pipe :=
  filter onScreen (map (scrollPipe (movedPlayer w)) (spawned rnd w)).

(** Has the frame detected a collision of the player? *)
Definition crashed (rnd : Q) (w : World) : bool :=
  outOfBounds (movedPlayer w) || hitsSomePipe (movedPlayer w) (spawned rnd w).

(** The updates a frame queues, in the order of the calls. *)
Definition queued (rnd : Q) (w : World) : list Update := snd (gameLoopBody rnd w).

(** [pipesRef.current] after the pass over the bullets. *)
Definition survivors (rnd : Q) (w : World) : list Pipe :=
  filter (fun p => negb (destroyed (bulletsRef w) p)) (scrolledPipes rnd w).

(** ** What every run preserves *)

(** Pipes are at least 300 apart, in the order of the collection. *)
Inductive spaced : list Pipe -> Prop :=
| spaced_nil : spaced []
| spaced_cons (p : Pipe) (ps : list Pipe) :
    Forall (fun q => pipe_x p + 300 <= pipe_x q) ps ->
    spaced ps -> spaced (p :: ps).

Record Inv (w : World) : Prop := mkInv {
  inv_frames : (0 <= frameCountRef w)%Z;
  inv_player : player_x (playerRef w) = 80;
  inv_bullets : Forall (fun b => 100 <= bullet_x b) (bulletsRef w);
  inv_passed : Forall (fun p => passed p = true -> pipe_x p + 50 < 80) (pipesRef w);
  inv_spaced : spaced (pipesRef w);
  inv_bound :
    Forall (fun p => pipe_x p <=
                     398 - 2 * inject_Z (Z.rem (frameCountRef w) PIPE_SPAWN_RATE))
      (pipesRef w)
}.

Definition passedBehind (p : Pipe) : Prop := passed p = true -> pipe_x p + 50 < 80.

(** ** Runs used as concrete inputs *)

(** Thirty-nine frames and a jump: the player rises, falls back to about
    the height of the jump, and jumps again. *)
Definition hoverCycle : list Event := repeat (Frame 0) 39 ++ [Jump].

(** The first 149 frames of a round, the player hovering. *)
Definition hoverRun : list Event :=
  Jump :: concat (repeat hoverCycle 3) ++ repeat (Frame 0) 32.

(** The player hovers for 301 frames while the first pipe (top height 50)
    comes up to it, and shoots; the next frame moves the pipe under the
    player and the bullet into the pipe. *)
Definition crashRun : list Event :=
  Jump :: concat (repeat hoverCycle 7) ++ repeat (Frame 0) 28 ++ [Shoot].

(** A jump before every frame: the player leaves through the top of the
    play-field in the 33rd frame. *)
Definition climbRun : list Event := concat (repeat [Jump; Frame 0] 33).

(** The pipes have their gap at 150..270 (the draw is 2/7) and the player
    hovers inside it: [cycles] hover cycles, then [n] more frames. *)
Definition gapRun (cycles n : nat) : list Event :=
  Jump :: concat (repeat (repeat (Frame (2 # 7)) 39 ++ [Jump]) cycles) ++
  repeat (Frame (2 # 7)) n.

(** ** The claims, where they need words of their own *)

(** The update as the claim words it: the position moves by the velocity
    of the frame before. *)
Definition positionUsesPreviousVelocity : Prop :=
  forall (rnd : Q) (w : World),
    gameState w = playing ->
    velocity (playerRef (gameLoop rnd w)) == velocity (playerRef w) + 0.4 /\
    player_y (playerRef (gameLoop rnd w)) ==
      player_y (playerRef w) + velocity (playerRef w).

(** A player at y = 552 falling at 7.6 per frame is at exactly 560 after
    the frame. *)
Definition onTheFloor : World :=
  mkWorld playing 0 0 (mkPlayer 80 552 (38 # 5) 0) [] [] 0.

(** The life of one pipe: the pipe and the updates its callback queues,
    frame after frame; [players] is the player of each frame, after its
    move. *)
Fixpoint pipeLife (sc hs : Z) (players : list Player) (p : Pipe)
  : list (Pipe * list Update) :=
  match players with
  | [] => []
  | player :: rest =>
      let '(p', us, _) := pipeCallback sc hs player p in
      (p', us) :: pipeLife sc hs rest p'
  end.

(** Number of changes from [false] to [true] ([risingEdges]) and from
    [true] to [false] ([fallingEdges]) along a sequence of flags that
    starts from [prev]. *)
Fixpoint risingEdges (prev : bool) (flags : list bool) : nat :=
  match flags with
  | [] => 0
  | f :: rest => (if negb prev && f then 1 else 0) + risingEdges f rest
  end.

Fixpoint fallingEdges (prev : bool) (flags : list bool) : nat :=
  match flags with
  | [] => 0
  | f :: rest => (if prev && negb f then 1 else 0) + fallingEdges f rest
  end.

Definition passedFlags (sc hs : Z) (players : list Player) (p : Pipe) : list bool :=
  map (fun s => passed (fst s)) (pipeLife sc hs players p).

Definition lifePoints (sc hs : Z) (players : list Player) (p : Pipe) : Z :=
  scoreDelta (flat_map snd (pipeLife sc hs players p)).

(** The removal tests of the two [filter] callbacks: a pipe is dropped for
    scrolling when [pipe.x > -60] fails after the move, a bullet is dropped
    for leaving when [bullet.x < GAME_WIDTH] fails after the move. *)
Definition pastLeftMargin (p : Pipe) : bool := negb (pipe_x p >? -60).
Definition leftField (b : Bullet) : bool := negb (bullet_x b <? GAME_WIDTH).

(** A pipe that has scrolled fully off the screen to the left: its right
    edge, at x + 50, is left of the edge of the canvas at 0. *)
Definition fullyOffScreenLeft (p : Pipe) : bool := pipe_x p + 50 <? 0.

(** The claim as it is worded, for the pipes: a pipe that has scrolled
    fully off the screen is removed in that same frame, so none is in the
    collection when a frame is over. *)
Definition offScreenPipesRemovedAtOnce : Prop :=
  forall (rnd : Q) (w : World),
    gameState w = playing ->
    Forall (fun p => fullyOffScreenLeft p = false) (pipesRef (gameLoop rnd w)).

(** A pipe after the callbacks of as many frames as there are [players]. *)
Definition scrollFrames (players : list Player) (p : Pipe) : Pipe :=
  fold_left (fun q player => scrollPipe player q) players p.

(** [bulletsRef.current] after the pass over the bullets. *)
Definition keptBullets (bullets : list Bullet) (pipes : list Pipe) : list Bullet :=
  fst (fst (updateBullets bullets pipes)).

(** The scan of one bullet in the words of the specification: the first
    pipe, in the order of the collection, that the bullet intersects is
    removed, and the scan stops there. *)
Fixpoint removeFirstHit (b : Bullet) (pipes : list Pipe) : option (list Pipe) :=
  match pipes with
  | [] => None
  | p :: rest =>
      if bulletHitsPipe b p then Some rest
      else option_map (cons p) (removeFirstHit b rest)
  end.

(** On a hit the bonus is awarded and the bullet is consumed. *)
Definition hitFirstPipe (b : Bullet) (pipes : list Pipe)
  : list Pipe * list Update * bool :=
  match removeFirstHit b pipes with
  | Some pipes' => (pipes', [AddScore BONUS_POINTS], true)
  | None => (pipes, [], false)
  end.

Fixpoint updateBulletsFirstHit (bullets : list Bullet) (pipes : list Pipe)
  : list Bullet * list Pipe * list Update :=
  match bullets with
  | [] => ([], pipes, [])
  | b :: rest =>
      let b' := moveBullet b in
      let '(pipes1, us, hit) := hitFirstPipe b' pipes in
      let keep := (bullet_x b' <? GAME_WIDTH) && negb hit in
      let '(rest', pipes2, us') := updateBulletsFirstHit rest pipes1 in
      ((if keep then b' :: rest' else rest'), pipes2, us ++ us')
  end.

(** The updates queued after the first [setGameState('gameOver')]. *)
Fixpoint afterFirstCrash (us : list Update) : list Update :=
  match us with
  | [] => []
  | SetGameState gameOver :: rest => rest
  | _ :: rest => afterFirstCrash rest
  end.

Definition isBonus (u : Update) : bool :=
  match u with
  | AddScore n => (n =? BONUS_POINTS)%Z
  | _ => false
  end.

(** No collision of a bullet with a pipe is resolved once a collision of
    the player has been detected. *)
Definition checksStopAtCrash (us : list Update) : bool :=
  negb (existsb isBonus (afterFirstCrash us)).

(** The claim as it is worded: the collision ends the round and cuts the
    collision checks of the frame short. *)
Definition collisionShortCircuits : Prop :=
  forall (rnd : Q) (w : World),
    gameState w = playing ->
    hitsSomePipe (movedPlayer w) (spawned rnd w) = true ->
    gameState (gameLoop rnd w) = gameOver /\
    checksStopAtCrash (queued rnd w) = true.

(** The claim as it is worded: in some frame of some run a pipe whose
    [passed] flag is set is destroyed by a bullet. *)
Definition passedPipeDestroyed : Prop :=
  exists (es : list Event) (rnd : Q) (p : Pipe),
    gameState (run es) = playing /\
    In p (scrolledPipes rnd (run es)) /\
    passed p = true /\
    destroyed (bulletsRef (run es)) p = true.

(** * The input handlers and further vocabulary *)

(** ** handleKeyDown, handleTouch *)

Definition numDiv (a b : Q) : Q := Qred (Qdiv a b).

Arguments numDiv : simpl never.

(** [handleKeyDown]: [code] is [e.code]. The two tests are made one after
    the other; no code passes both. *)
Definition handleKeyDown (code : string) (w : World) : World :=
  let w1 :=
    if String.eqb code "Space"%string || String.eqb code "ArrowUp"%string then jump w else w in
  if String.eqb code "KeyZ"%string || String.eqb code "Enter"%string then shoot w1 else w1.

(** [handleTouch]: [canvasLeft] is [rect.left] of the canvas, [None] when
    [canvasRef.current] is null; [clientX] is [e.touches[0].clientX]. *)
Definition handleTouch (canvasLeft : option Q) (clientX : Q) (w : World) : World :=
  match canvasLeft with
  | Some rectLeft =>
      let x := clientX - rectLeft in
      if x >? numDiv GAME_WIDTH 2 then shoot w else jump w
  | None => w
  end.

(** ** Worlds that differ in one field *)

Definition withRotation (r : Q) (w : World) : World :=
  setPlayer
    (mkPlayer (player_x (playerRef w)) (player_y (playerRef w))
       (velocity (playerRef w)) r) w.

Definition withHighScore (h : Z) (w : World) : World :=
  mkWorld (gameState w) (score w) h (playerRef w) (pipesRef w) (bulletsRef w)
    (frameCountRef w).

(** ** Frames without a jump *)


(** ** A player in play *)

(** The player is within the bounds of [gameLoop] and clear of every pipe
    of the collection. *)
Definition playerSafe (w : World) : Prop :=
  0 <= player_y (playerRef w) /\ player_y (playerRef w) <= 560 /\
  Forall (fun p => playerHitsPipe (playerRef w) p = false) (pipesRef w).

(** ** Order of a collection *)

(** [subseq l l']: [l] is [l'] with some elements left out, the others in
    their order. *)
Inductive subseq {A : Type} : list A -> list A -> Prop :=
| subseq_nil : subseq [] []
| subseq_skip (a : A) (l l' : list A) : subseq l l' -> subseq l (a :: l')
| subseq_keep (a : A) (l l' : list A) : subseq l l' -> subseq (a :: l) (a :: l').

(** ** The phases an event may lead to *)

Definition mayFollow (g : GameState) (e : Event) (g' : GameState) : bool :=
  match g, e, g' with
  | start, Jump, playing => true
  | start, (Frame _ | Shoot), start => true
  | playing, (Jump | Shoot), playing => true
  | playing, Frame _, (playing | gameOver) => true
  | gameOver, Jump, start => true
  | gameOver, (Frame _ | Shoot), gameOver => true
  | _, _, _ => false
  end.

Definition isJump (e : Event) : bool :=
  match e with Jump => true | _ => false end.

(** ** The largest score along a sequence of events *)

Fixpoint bestScore (w : World) (es : list Event) : Z :=
  match es with
  | [] => score w
  | e :: rest => Z.max (score w) (bestScore (step w e) rest)
  end.

(** ** What every run keeps true of its bullets and pipes *)

Definition bulletInField (b : Bullet) : Prop :=
  100 <= bullet_x b /\ bullet_x b < GAME_WIDTH /\ active b = true.

Definition pipeInField (p : Pipe) : Prop :=
  -60 < pipe_x p /\ pipe_x p <= 398 /\ gap p = 120.

(** The bullet [shoot] creates. *)
Definition newBullet (player : Player) : Bullet :=
  mkBullet (player_x player + 20) (player_y player + 10) true.

(** A world at rest on the start screen after a finished round. *)
Definition restartedWorld (h : Z) : World := withHighScore h initialWorld.

(** * Properties *)

(** ** Numbers and comparisons *)

Lemma numAdd_eq (a b : Q) : a + b == Qplus a b.
Proof. apply Qred_correct. Qed.

Lemma numSub_eq (a b : Q) : a - b == Qminus a b.
Proof. apply Qred_correct. Qed.

Lemma numMul_eq (a b : Q) : a * b == Qmult a b.
Proof. apply Qred_correct. Qed.

(** Linear arithmetic over the numbers of the program: every result of an
    operator is named and related to the plain rational operation. *)
Ltac num_name op eqn a b :=
  let e := fresh "e" in
  let q := fresh "q" in
  pose proof (eqn a b) as e; set (q := op a b) in *; clearbody q.

Ltac num_lra :=
  repeat match goal with
         | H : context [numAdd ?a ?b] |- _ => num_name numAdd numAdd_eq a b
         | |- context [numAdd ?a ?b] => num_name numAdd numAdd_eq a b
         | H : context [numSub ?a ?b] |- _ => num_name numSub numSub_eq a b
         | |- context [numSub ?a ?b] => num_name numSub numSub_eq a b
         | H : context [numMul ?a ?b] |- _ => num_name numMul numMul_eq a b
         | |- context [numMul ?a ?b] => num_name numMul numMul_eq a b
         end;
  lra.

Lemma Qltb_true (a b : Q) : (a <? b) = true <-> a < b.
Proof.
  unfold Qltb. rewrite negb_true_iff. split; intro H.
  - apply Qnot_le_lt. intro L. apply Qle_bool_iff in L. congruence.
  - destruct (Qle_bool b a) eqn:E; [|reflexivity].
    apply Qle_bool_iff in E. exfalso. revert E. now apply Qlt_not_le.
Qed.

Lemma Qltb_false (a b : Q) : (a <? b) = false <-> b <= a.
Proof.
  unfold Qltb. rewrite negb_false_iff. apply Qle_bool_iff.
Qed.

Lemma Qgtb_true (a b : Q) : (a >? b) = true <-> b < a.
Proof. apply Qltb_true. Qed.

Lemma Qgtb_false (a b : Q) : (a >? b) = false <-> a <= b.
Proof. apply Qltb_false. Qed.

(** Two rectangles that collide overlap on the horizontal axis. *)
Lemma checkCollision_x (a b : Rect) :
  checkCollision a b = true ->
  rect_x a < rect_x b + rect_w b /\ rect_x b < rect_x a + rect_w a.
Proof.
  unfold checkCollision. rewrite !andb_true_iff.
  intros [[[H1 H2] _] _]. split; [now apply Qltb_true | now apply Qgtb_true].
Qed.

Lemma bulletHitsPipe_x (b : Bullet) (p : Pipe) :
  bulletHitsPipe b p = true ->
  bullet_x b - 5 < pipe_x p + 50 /\ pipe_x p < bullet_x b - 5 + 10.
Proof.
  unfold bulletHitsPipe. rewrite orb_true_iff.
  intros [H | H]; apply checkCollision_x in H; exact H.
Qed.

(** The collision test of a bullet never reads the [passed] flag. *)
Lemma bulletHitsPipe_passed (b : Bullet) (p : Pipe) (f : bool) :
  bulletHitsPipe b (mkPipe (pipe_x p) (topHeight p) (gap p) f) = bulletHitsPipe b p.
Proof. reflexivity. Qed.

(** ** What a queue of updates does when it is committed *)

Lemma commit_fields (us : list Update) (w : World) :
  commit us w =
  mkWorld (stateAfter us (gameState w)) (score w + scoreDelta us)%Z
    (highAfter us (highScore w)) (playerRef w) (pipesRef w) (bulletsRef w)
    (frameCountRef w).
Proof.
  revert w. induction us as [|u us IH]; intro w.
  - destruct w; simpl. now rewrite Z.add_0_r.
  - unfold commit in *. simpl. rewrite IH.
    destruct u; simpl; try reflexivity.
    now rewrite Z.add_assoc.
Qed.

Lemma scoreDelta_app (us vs : list Update) :
  scoreDelta (us ++ vs) = (scoreDelta us + scoreDelta vs)%Z.
Proof.
  induction us as [|u us IH]; simpl; [reflexivity|].
  destruct u; rewrite ?IH; lia.
Qed.

Lemma stateAfter_app (us vs : list Update) (g : GameState) :
  stateAfter (us ++ vs) g = stateAfter vs (stateAfter us g).
Proof. apply fold_left_app. Qed.

Lemma highAfter_app (us vs : list Update) (h : Z) :
  highAfter (us ++ vs) h = highAfter vs (highAfter us h).
Proof. apply fold_left_app. Qed.

Lemma scoreDelta_gameOverUpdates (sc hs : Z) :
  scoreDelta (gameOverUpdates sc hs) = 0%Z.
Proof. unfold gameOverUpdates. now destruct (sc >? hs)%Z. Qed.

Lemma stateAfter_gameOverUpdates (sc hs : Z) (g : GameState) :
  stateAfter (gameOverUpdates sc hs) g = gameOver.
Proof. unfold gameOverUpdates. now destruct (sc >? hs)%Z. Qed.

Lemma highAfter_gameOverUpdates (sc hs h : Z) :
  highAfter (gameOverUpdates sc hs) h = if (sc >? hs)%Z then sc else h.
Proof. unfold gameOverUpdates. now destruct (sc >? hs)%Z. Qed.

(** ** The pass over the pipes *)

Lemma pipeCallback_eq (sc hs : Z) (player : Player) (p : Pipe) :
  pipeCallback sc hs player p =
  (scrollPipe player p, pipeUpdates sc hs player p, onScreen (scrollPipe player p)).
Proof.
  unfold pipeCallback, scrollPipe, pipeUpdates, onScreen.
  now destruct (justPassed player (movePipe p)).
Qed.

Lemma scrollPipe_x (player : Player) (p : Pipe) :
  pipe_x (scrollPipe player p) = pipe_x p - PIPE_SPEED.
Proof.
  unfold scrollPipe. now destruct (justPassed player (movePipe p)).
Qed.

Lemma scrollPipe_rects (player : Player) (p : Pipe) :
  topPipe (scrollPipe player p) = topPipe (movePipe p) /\
  bottomPipe (scrollPipe player p) = bottomPipe (movePipe p).
Proof.
  unfold scrollPipe. now destruct (justPassed player (movePipe p)).
Qed.

Lemma updatePipes_eq (sc hs : Z) (player : Player) (pipes : list Pipe) :
  updatePipes sc hs player pipes =
  (filter onScreen (map (scrollPipe player) pipes),
   flat_map (pipeUpdates sc hs player) pipes).
Proof.
  induction pipes as [|p rest IH]; [reflexivity|].
  cbn [updatePipes]. rewrite pipeCallback_eq, IH. cbn [map filter flat_map].
  now destruct (onScreen (scrollPipe player p)).
Qed.

Lemma pipeUpdates_score (sc hs : Z) (player : Player) (pipes : list Pipe) :
  scoreDelta (flat_map (pipeUpdates sc hs player) pipes) =
  Z.of_nat (passedNow player pipes).
Proof.
  unfold passedNow.
  induction pipes as [|p rest IH]; [reflexivity|].
  cbn [flat_map map filter]. unfold pipeUpdates at 1.
  rewrite !scoreDelta_app, IH.
  destruct (playerHitsPipe player (movePipe p));
    rewrite ?scoreDelta_gameOverUpdates;
    destruct (justPassed player (movePipe p)); cbn [scoreDelta fold_right length]; lia.
Qed.

Lemma pipeUpdates_state (sc hs : Z) (player : Player) (pipes : list Pipe) (g : GameState) :
  stateAfter (flat_map (pipeUpdates sc hs player) pipes) g =
  if hitsSomePipe player pipes then gameOver else g.
Proof.
  unfold hitsSomePipe. revert g.
  induction pipes as [|p rest IH]; intro g; [reflexivity|].
  cbn [flat_map map existsb]. unfold pipeUpdates at 1.
  rewrite !stateAfter_app, IH.
  destruct (playerHitsPipe player (movePipe p)); cbn [orb].
  - rewrite stateAfter_gameOverUpdates.
    destruct (justPassed player (movePipe p)); cbn;
      now destruct (existsb _ _).
  - destruct (justPassed player (movePipe p)); reflexivity.
Qed.

Lemma pipeUpdates_high (sc hs : Z) (player : Player) (pipes : list Pipe) (h : Z) :
  highAfter (flat_map (pipeUpdates sc hs player) pipes) h =
  if hitsSomePipe player pipes && (sc >? hs)%Z then sc else h.
Proof.
  unfold hitsSomePipe. revert h.
  induction pipes as [|p rest IH]; intro h; [reflexivity|].
  cbn [flat_map map existsb]. unfold pipeUpdates at 1.
  rewrite !highAfter_app, IH.
  destruct (playerHitsPipe player (movePipe p)); cbn [orb andb].
  - rewrite highAfter_gameOverUpdates.
    destruct (sc >? hs)%Z; rewrite ?andb_true_r, ?andb_false_r;
    destruct (justPassed player (movePipe p)); cbn;
      now destruct (existsb _ _).
  - destruct (justPassed player (movePipe p)); reflexivity.
Qed.

(** ** The pass over the bullets *)

Lemma hitPipes_eq (b : Bullet) (pipes : list Pipe) :
  hitPipes b pipes =
  (filter (fun p => negb (bulletHitsPipe b p)) pipes,
   bonusUpdates (length (filter (bulletHitsPipe b) pipes)),
   existsb (bulletHitsPipe b) pipes).
Proof.
  induction pipes as [|p rest IH]; [reflexivity|].
  cbn [hitPipes filter existsb]. rewrite IH.
  now destruct (bulletHitsPipe b p).
Qed.

Lemma filter_filter {A} (f g : A -> bool) (l : list A) :
  filter f (filter g l) = filter (fun a => g a && f a) l.
Proof.
  induction l as [|a l IH]; [reflexivity|]. cbn [filter].
  destruct (g a); cbn [filter andb]; rewrite IH; reflexivity.
Qed.

Lemma updateBullets_pipes (bullets : list Bullet) (pipes : list Pipe) :
  snd (fst (updateBullets bullets pipes)) =
  filter (fun p => negb (destroyed bullets p)) pipes.
Proof.
  revert pipes. induction bullets as [|b rest IH]; intro pipes.
  - cbn. induction pipes as [|p ps IHp]; [reflexivity|]. cbn. now rewrite <- IHp.
  - cbn [updateBullets]. rewrite hitPipes_eq.
    specialize (IH (filter (fun p => negb (bulletHitsPipe (moveBullet b) p)) pipes)).
    destruct (updateBullets rest _) as [[rest' pipes2] us'].
    cbn [fst snd] in *. rewrite IH, filter_filter.
    apply filter_ext. intro p. cbn [destroyed existsb].
    now rewrite negb_orb.
Qed.

Lemma length_filter_split {A} (f : A -> bool) (l : list A) :
  length l = (length (filter f l) + length (filter (fun a => negb (f a)) l))%nat.
Proof.
  induction l as [|a l IH]; [reflexivity|]. cbn [filter].
  destruct (f a); cbn [negb length]; lia.
Qed.

Lemma length_filter_le {A} (f : A -> bool) (l : list A) :
  (length (filter f l) <= length l)%nat.
Proof.
  induction l as [|a l IH]; [apply le_n|]. cbn [filter].
  destruct (f a); cbn [length]; lia.
Qed.

Lemma scoreDelta_bonus (n : nat) : scoreDelta (bonusUpdates n) = (2 * Z.of_nat n)%Z.
Proof.
  unfold bonusUpdates. induction n as [|n IH]; [reflexivity|].
  unfold scoreDelta in *. cbn [repeat fold_right]. rewrite IH. lia.
Qed.

Lemma stateAfter_bonus (n : nat) (g : GameState) : stateAfter (bonusUpdates n) g = g.
Proof. induction n as [|n IH]; [reflexivity|]. exact IH. Qed.

Lemma highAfter_bonus (n : nat) (h : Z) : highAfter (bonusUpdates n) h = h.
Proof. induction n as [|n IH]; [reflexivity|]. exact IH. Qed.

(** The updates of the bullet pass are bonuses, one per pipe removed. *)
Lemma updateBullets_updates (bullets : list Bullet) (pipes : list Pipe) :
  forall g h,
  stateAfter (snd (updateBullets bullets pipes)) g = g /\
  highAfter (snd (updateBullets bullets pipes)) h = h /\
  scoreDelta (snd (updateBullets bullets pipes)) =
  (2 * (Z.of_nat (length pipes) -
        Z.of_nat (length (snd (fst (updateBullets bullets pipes))))))%Z.
Proof.
  revert pipes. induction bullets as [|b rest IH]; intros pipes g h.
  - cbn [updateBullets fst snd]. repeat split.
    unfold scoreDelta. cbn [fold_right]. lia.
  - cbn [updateBullets]. rewrite hitPipes_eq.
    specialize (IH (filter (fun p => negb (bulletHitsPipe (moveBullet b) p)) pipes) g h).
    destruct (updateBullets rest _) as [[rest' pipes2] us'].
    cbn [fst snd] in *. destruct IH as (IH1 & IH2 & IH3).
    rewrite stateAfter_app, highAfter_app, scoreDelta_app.
    rewrite stateAfter_bonus, highAfter_bonus, scoreDelta_bonus, IH3.
    repeat split; try assumption.
    rewrite (length_filter_split (bulletHitsPipe (moveBullet b)) pipes). lia.
Qed.

(** ** One frame in the playing state, field by field *)

Lemma gameLoopBody_eq (rnd : Q) (w : World) :
  gameLoopBody rnd w =
  (mkWorld (gameState w) (score w) (highScore w) (movedPlayer w)
     (survivors rnd w)
     (fst (fst (updateBullets (bulletsRef w) (scrolledPipes rnd w))))
     (frameCountRef w + 1),
   checkBounds (score w) (highScore w) (movedPlayer w) ++
   flat_map (pipeUpdates (score w) (highScore w) (movedPlayer w)) (spawned rnd w) ++
   snd (updateBullets (bulletsRef w) (scrolledPipes rnd w))).
Proof.
  unfold gameLoopBody, survivors, scrolledPipes, spawned, movedPlayer.
  rewrite updatePipes_eq, <- updateBullets_pipes.
  now destruct (updateBullets _ _) as [[bs ps] us].
Qed.

Lemma gameLoop_playing (rnd : Q) (w : World) :
  gameState w = playing ->
  gameLoop rnd w =
  mkWorld (if crashed rnd w then gameOver else playing)
    (score w + Z.of_nat (passedNow (movedPlayer w) (spawned rnd w)) +
     2 * (Z.of_nat (length (scrolledPipes rnd w)) -
          Z.of_nat (length (survivors rnd w))))%Z
    (if crashed rnd w && (score w >? highScore w)%Z then score w else highScore w)
    (movedPlayer w)
    (survivors rnd w)
    (fst (fst (updateBullets (bulletsRef w) (scrolledPipes rnd w))))
    (frameCountRef w + 1).
Proof.
  intro Hp. unfold gameLoop. rewrite Hp, gameLoopBody_eq, commit_fields.
  cbn [gameState score highScore playerRef pipesRef bulletsRef frameCountRef].
  destruct (updateBullets_updates (bulletsRef w) (scrolledPipes rnd w)
              (stateAfter (flat_map (pipeUpdates (score w) (highScore w) (movedPlayer w))
                             (spawned rnd w))
                 (stateAfter (checkBounds (score w) (highScore w) (movedPlayer w)) (gameState w)))
              (highAfter (flat_map (pipeUpdates (score w) (highScore w) (movedPlayer w))
                            (spawned rnd w))
                 (highAfter (checkBounds (score w) (highScore w) (movedPlayer w)) (highScore w))))
    as (E1 & E2 & E3).
  rewrite !stateAfter_app, !highAfter_app, !scoreDelta_app, E1, E2, E3.
  rewrite pipeUpdates_state, pipeUpdates_high, pipeUpdates_score.
  rewrite updateBullets_pipes. fold (survivors rnd w).
  unfold crashed, checkBounds.
  destruct (outOfBounds (movedPlayer w)); cbn [orb].
  - rewrite stateAfter_gameOverUpdates, highAfter_gameOverUpdates,
      scoreDelta_gameOverUpdates.
    destruct (hitsSomePipe _ _); cbn [andb];
      destruct (score w >? highScore w)%Z; f_equal; lia.
  - cbn [stateAfter highAfter scoreDelta fold_left fold_right]. rewrite Hp.
    f_equal; lia.
Qed.

Lemma gameLoop_idle (rnd : Q) (w : World) :
  gameState w <> playing -> gameLoop rnd w = w.
Proof. unfold gameLoop. destruct (gameState w); congruence. Qed.

(** ** What every run preserves *)

Lemma spaced_filter (f : Pipe -> bool) (ps : list Pipe) :
  spaced ps -> spaced (filter f ps).
Proof.
  induction 1 as [|p ps HF HS IH]; [constructor|].
  cbn [filter]. destruct (f p); [|exact IH].
  constructor; [|exact IH].
  rewrite Forall_forall in *. intros q Hq.
  apply filter_In in Hq. now apply HF.
Qed.

Lemma spaced_scroll (player : Player) (ps : list Pipe) :
  spaced ps -> spaced (map (scrollPipe player) ps).
Proof.
  induction 1 as [|p ps HF HS IH]; [constructor|].
  cbn [map]. constructor; [|exact IH].
  rewrite Forall_forall in *. intros q Hq.
  apply in_map_iff in Hq. destruct Hq as (q0 & <- & Hq0).
  rewrite !scrollPipe_x. specialize (HF q0 Hq0). unfold PIPE_SPEED. num_lra.
Qed.

Lemma spaced_snoc (ps : list Pipe) (q : Pipe) :
  spaced ps -> Forall (fun p => pipe_x p + 300 <= pipe_x q) ps ->
  spaced (ps ++ [q]).
Proof.
  induction 1 as [|p ps HF HS IH]; intro Hq.
  - repeat constructor.
  - inversion Hq as [|? ? Hp Hps]; subst. cbn [app]. constructor.
    + apply Forall_app. split; [exact HF|]. now constructor.
    + now apply IH.
Qed.

Lemma rem_next_zero (n : Z) :
  (0 <= n)%Z -> Z.rem (n + 1) PIPE_SPAWN_RATE = 0%Z ->
  Z.rem n PIPE_SPAWN_RATE = 149%Z.
Proof.
  unfold PIPE_SPAWN_RATE. intros Hn H.
  rewrite Z.rem_mod_nonneg in * by lia.
  pose proof (Z.mod_pos_bound n 150 ltac:(lia)).
  pose proof (Z.div_mod n 150 ltac:(lia)).
  pose proof (Z.div_mod (n + 1) 150 ltac:(lia)).
  rewrite H in *. lia.
Qed.

Lemma rem_next_nonzero (n : Z) :
  (0 <= n)%Z -> Z.rem (n + 1) PIPE_SPAWN_RATE <> 0%Z ->
  Z.rem (n + 1) PIPE_SPAWN_RATE = (Z.rem n PIPE_SPAWN_RATE + 1)%Z.
Proof.
  unfold PIPE_SPAWN_RATE. intros Hn H.
  rewrite !Z.rem_mod_nonneg in * by lia.
  pose proof (Z.mod_pos_bound n 150 ltac:(lia)).
  pose proof (Z.mod_pos_bound (n + 1) 150 ltac:(lia)).
  pose proof (Z.div_mod n 150 ltac:(lia)).
  pose proof (Z.div_mod (n + 1) 150 ltac:(lia)).
  lia.
Qed.

Lemma rem_nonneg (n : Z) : (0 <= n)%Z -> 0 <= inject_Z (Z.rem n PIPE_SPAWN_RATE).
Proof.
  intro Hn. unfold PIPE_SPAWN_RATE. rewrite Z.rem_mod_nonneg by lia.
  change 0 with (inject_Z 0). rewrite <- Zle_Qle.
  apply Z.mod_pos_bound. lia.
Qed.

(** Every bullet the pass keeps is a bullet of the collection, moved. *)
Lemma updateBullets_kept (bullets : list Bullet) (pipes : list Pipe) (b' : Bullet) :
  In b' (fst (fst (updateBullets bullets pipes))) ->
  exists b, In b bullets /\ b' = moveBullet b.
Proof.
  revert pipes. induction bullets as [|b rest IH]; intros pipes H.
  - destruct H.
  - cbn [updateBullets] in H.
    destruct (hitPipes (moveBullet b) pipes) as [[pipes1 us] hit].
    specialize (IH pipes1).
    destruct (updateBullets rest pipes1) as [[rest' pipes2] us'].
    cbn [fst snd] in *.
    destruct ((bullet_x (moveBullet b) <? GAME_WIDTH) && negb hit).
    + destruct H as [<- | H].
      * exists b. split; [now left | reflexivity].
      * destruct (IH H) as (b0 & Hb0 & ->). exists b0. split; [now right | reflexivity].
    + destruct (IH H) as (b0 & Hb0 & ->). exists b0. split; [now right | reflexivity].
Qed.

Lemma Inv_spawned (rnd : Q) (w : World) :
  Inv w ->
  spaced (spawned rnd w) /\
  Forall passedBehind (spawned rnd w) /\
  Forall (fun p => pipe_x p <=
                   400 - 2 * inject_Z (Z.rem (frameCountRef w + 1) PIPE_SPAWN_RATE))
    (spawned rnd w).
Proof.
  intros [Hf _ _ Hpass Hsp Hb]. unfold spawned, spawnPipes.
  destruct (Z.rem (frameCountRef w + 1) PIPE_SPAWN_RATE =? 0)%Z eqn:E.
  - apply Z.eqb_eq in E. pose proof (rem_next_zero _ Hf E) as E'.
    rewrite E' in Hb. rewrite E. repeat split.
    + apply spaced_snoc; [exact Hsp|].
      eapply Forall_impl; [|exact Hb]. cbn. intros p Hp.
      unfold GAME_WIDTH. unfold inject_Z in Hp. num_lra.
    + apply Forall_app. split; [exact Hpass|].
      constructor; [|constructor]. intro Hc. discriminate Hc.
    + apply Forall_app. split.
      * eapply Forall_impl; [|exact Hb]. cbn. intros p Hp.
        unfold inject_Z in *. num_lra.
      * constructor; [|constructor]. cbn. unfold inject_Z, GAME_WIDTH. num_lra.
  - apply Z.eqb_neq in E. rewrite (rem_next_nonzero _ Hf E).
    repeat split; try assumption.
    eapply Forall_impl; [|exact Hb]. cbn. intros p Hp.
    rewrite inject_Z_plus. change (inject_Z 1) with 1.
    set (k := inject_Z _) in *. num_lra.
Qed.

Lemma scrollPipe_passed (player : Player) (p : Pipe) :
  passed (scrollPipe player p) =
  passed p || (pipe_x p - PIPE_SPEED + 50 <? player_x player).
Proof.
  destruct p as [px th gp ps].
  unfold scrollPipe, justPassed, movePipe, markPassed.
  cbn [passed pipe_x topHeight gap].
  destruct ps; cbn [negb andb orb]; [reflexivity|].
  now destruct (px - PIPE_SPEED + 50 <? player_x player).
Qed.

Lemma scrollPipe_passedBehind (player : Player) (p : Pipe) :
  player_x player = 80 -> passedBehind p -> passedBehind (scrollPipe player p).
Proof.
  unfold passedBehind. intros Hx Hp.
  rewrite scrollPipe_passed, scrollPipe_x, orb_true_iff, Hx.
  intros [H | H].
  - specialize (Hp H). unfold PIPE_SPEED. num_lra.
  - now apply Qltb_true in H.
Qed.

Lemma Inv_scrolled (rnd : Q) (w : World) :
  Inv w ->
  spaced (scrolledPipes rnd w) /\
  Forall passedBehind (scrolledPipes rnd w) /\
  Forall (fun p => pipe_x p <=
                   398 - 2 * inject_Z (Z.rem (frameCountRef w + 1) PIPE_SPAWN_RATE))
    (scrolledPipes rnd w).
Proof.
  intro HI. destruct (Inv_spawned rnd w HI) as (Hs & Hp & Hb).
  unfold scrolledPipes. repeat split.
  - apply spaced_filter, spaced_scroll, Hs.
  - rewrite Forall_forall in *. intros q Hq.
    apply filter_In in Hq. destruct Hq as [Hq _].
    apply in_map_iff in Hq. destruct Hq as (q0 & <- & Hq0).
    apply scrollPipe_passedBehind; [|now apply Hp].
    unfold movedPlayer, applyGravity. cbn. apply HI.
  - rewrite Forall_forall in *. intros q Hq.
    apply filter_In in Hq. destruct Hq as [Hq _].
    apply in_map_iff in Hq. destruct Hq as (q0 & <- & Hq0).
    rewrite scrollPipe_x. specialize (Hb q0 Hq0). cbn in Hb.
    unfold PIPE_SPEED. num_lra.
Qed.

Lemma Forall_filter {A} (P : A -> Prop) (f : A -> bool) (l : list A) :
  Forall P l -> Forall P (filter f l).
Proof.
  rewrite !Forall_forall. intros H a Ha. apply filter_In in Ha. now apply H.
Qed.

Lemma Inv_gameLoop (rnd : Q) (w : World) : Inv w -> Inv (gameLoop rnd w).
Proof.
  intro HI. destruct (GameState_eqb (gameState w) playing) eqn:E.
  - assert (Hp : gameState w = playing) by (destruct (gameState w); now try discriminate).
    rewrite (gameLoop_playing rnd w Hp).
    destruct (Inv_scrolled rnd w HI) as (Hs & Hpass & Hb).
    constructor; cbn [frameCountRef playerRef bulletsRef pipesRef].
    + pose proof (inv_frames w HI). lia.
    + unfold movedPlayer, applyGravity. cbn. apply HI.
    + rewrite Forall_forall. intros b' Hb'.
      apply updateBullets_kept in Hb'. destruct Hb' as (b & Hin & ->).
      pose proof (inv_bullets w HI) as HB. rewrite Forall_forall in HB.
      specialize (HB b Hin). cbn. unfold BULLET_SPEED. num_lra.
    + apply Forall_filter, Hpass.
    + apply spaced_filter, Hs.
    + apply Forall_filter, Hb.
  - rewrite gameLoop_idle; [exact HI|].
    intro Hc. rewrite Hc in E. discriminate E.
Qed.

Lemma Inv_initialWorld : Inv initialWorld.
Proof.
  constructor; cbn; try constructor; try reflexivity; discriminate.
Qed.

Lemma Inv_jump (w : World) : Inv w -> Inv (jump w).
Proof.
  intros [Hf Hx Hbul Hpass Hsp Hb]. unfold jump.
  destruct (gameState w); constructor; cbn; try assumption;
    try constructor; try reflexivity; discriminate.
Qed.

Lemma Inv_shoot (w : World) : Inv w -> Inv (shoot w).
Proof.
  intros [Hf Hx Hbul Hpass Hsp Hb]. unfold shoot.
  destruct (gameState w); constructor; cbn; try assumption.
  apply Forall_app. split; [exact Hbul|].
  constructor; [|constructor]. cbn. rewrite Hx. cbn. num_lra.
Qed.

Lemma Inv_step (w : World) (e : Event) : Inv w -> Inv (step w e).
Proof.
  destruct e; cbn; [apply Inv_gameLoop | apply Inv_jump | apply Inv_shoot].
Qed.

(** The invariant holds in every world a run reaches. *)
Lemma Inv_run (es : list Event) : Inv (run es).
Proof.
  unfold run. generalize Inv_initialWorld. generalize initialWorld.
  induction es as [|e es IH]; intros w Hw; [exact Hw|].
  cbn [fold_left]. apply IH, Inv_step, Hw.
Qed.

(** ** The run that ends in a pipe, evaluated *)

(** The world [crashRun] reaches: frame 301 is over, the player is at
    y = 188.4 falling at 3.2, the first pipe is at x = 96 (its segments
    are 0..50 and 170..770), and the bullet has just been fired. *)
Lemma crashRun_world :
  run crashRun =
  mkWorld playing 0 0 (mkPlayer 80 (942 # 5) (16 # 5) (48 # 5))
    [mkPipe 96 50 120 false; mkPipe 396 50 120 false]
    [mkBullet 100 (992 # 5) true] 301.
Proof. vm_compute. reflexivity. Qed.

(** Its next frame, evaluated: the player (hitbox 65..95 by 177..207) runs
    into the first pipe (94..144), which the bullet (hitbox 103..113 by
    195.4..201.4) hits in the same frame. *)
Lemma crashRun_facts :
  let w := run crashRun in
  (outOfBounds (movedPlayer w) = false /\
   hitsSomePipe (movedPlayer w) (spawned 0 w) = true /\
   map (fun p => (pipe_x p, passed p, destroyed (bulletsRef w) p))
     (scrolledPipes 0 w) = [(94, false, true); (394, false, false)] /\
   queued 0 w = [SetGameState gameOver; AddScore 2]) /\
  gameLoop 0 w =
  mkWorld gameOver 2 0 (mkPlayer 80 192 (18 # 5) (54 # 5))
    [mkPipe 394 50 120 false] [] 302.
Proof. vm_compute. repeat split. Qed.

Lemma crashRun_playing : gameState (run crashRun) = playing.
Proof. rewrite crashRun_world. reflexivity. Qed.

Lemma crashRun_hitsPipe :
  hitsSomePipe (movedPlayer (run crashRun)) (spawned 0 (run crashRun)) = true.
Proof. exact (proj1 (proj2 (proj1 crashRun_facts))). Qed.

(** * The claims *)

(** ** C1: a collision with a pipe ends the round, not the frame *)

Lemma hitsSomePipe_iff (player : Player) (pipes : list Pipe) :
  hitsSomePipe player pipes = true <->
  exists p, In p pipes /\ playerHitsPipe player (movePipe p) = true.
Proof.
  unfold hitsSomePipe. rewrite existsb_exists. split.
  - intros (q & Hq & Hh). apply in_map_iff in Hq.
    destruct Hq as (p & <- & Hp). eauto.
  - intros (p & Hp & Hh). exists (movePipe p). split; [|exact Hh].
    now apply in_map.
Qed.

(** C1, as stated, fails: in the last frame of [crashRun] the player hits
    the first pipe, and the frame still goes on to test the bullet against
    that pipe, removes the pipe and queues the two bonus points. *)
Lemma C1_checks_go_on_after_collision : ~ collisionShortCircuits.
Proof.
  intro H.
  destruct crashRun_facts as ((_ & Hh & _ & Hq) & _).
  destruct (H 0 (run crashRun) crashRun_playing Hh) as [_ Hc].
  rewrite Hq in Hc. discriminate Hc.
Qed.

(** C1, amended: in a frame in the playing state, if the hitbox of the
    player (30 by 30, centred on its position after the move) intersects
    the top or the bottom segment of a pipe after the pipes have moved, the
    state is game over when the updates of the frame are committed. The
    frame is not cut short: all pipes are moved, tested and scored, all
    bullets are moved and tested against the pipes, and the points of the
    frame are added, as in any other frame. *)
Theorem C1_collision_ends_round (rnd : Q) (w : World) :
  gameState w = playing ->
  hitsSomePipe (movedPlayer w) (spawned rnd w) = true ->
  playerHitbox (movedPlayer w) =
    mkRect (player_x (playerRef w) - 15) (player_y (movedPlayer w) - 15) 30 30 /\
  gameState (gameLoop rnd w) = gameOver /\
  pipesRef (gameLoop rnd w) =
    filter (fun p => negb (destroyed (bulletsRef w) p))
      (filter onScreen (map (scrollPipe (movedPlayer w)) (spawned rnd w))) /\
  bulletsRef (gameLoop rnd w) = keptBullets (bulletsRef w) (scrolledPipes rnd w) /\
  score (gameLoop rnd w) =
    (score w + PASS_POINTS * Z.of_nat (passedNow (movedPlayer w) (spawned rnd w)) +
     BONUS_POINTS * (Z.of_nat (length (scrolledPipes rnd w)) -
                     Z.of_nat (length (pipesRef (gameLoop rnd w)))))%Z.
Proof.
  intros Hp Hh. rewrite (gameLoop_playing rnd w Hp).
  cbn [gameState pipesRef bulletsRef score].
  unfold crashed. rewrite Hh, orb_true_r.
  unfold PASS_POINTS, BONUS_POINTS. repeat split. lia.
Qed.

Lemma C1_collision_ends_round_witness :
  let w := run crashRun in
  gameState w = playing /\
  hitsSomePipe (movedPlayer w) (spawned 0 w) = true /\
  (playerHitbox (movedPlayer w) =
     mkRect (player_x (playerRef w) - 15) (player_y (movedPlayer w) - 15) 30 30 /\
   gameState (gameLoop 0 w) = gameOver /\
   pipesRef (gameLoop 0 w) =
     filter (fun p => negb (destroyed (bulletsRef w) p))
       (filter onScreen (map (scrollPipe (movedPlayer w)) (spawned 0 w))) /\
   bulletsRef (gameLoop 0 w) = keptBullets (bulletsRef w) (scrolledPipes 0 w) /\
   score (gameLoop 0 w) =
     (score w + PASS_POINTS * Z.of_nat (passedNow (movedPlayer w) (spawned 0 w)) +
      BONUS_POINTS * (Z.of_nat (length (scrolledPipes 0 w)) -
                      Z.of_nat (length (pipesRef (gameLoop 0 w)))))%Z).
Proof.
  cbv zeta.
  split; [exact crashRun_playing|].
  split; [exact crashRun_hitsPipe|].
  apply (C1_collision_ends_round 0 (run crashRun));
    [exact crashRun_playing | exact crashRun_hitsPipe].
Defined.

(** ** C2: gravity, then position *)

(** C2, as stated, fails: in the first frame after the starting jump
    (y = 250, velocity = -8) the position becomes 242.4 = 250 + (-8 + 0.4),
    not 250 + (-8) = 242. *)
Lemma C2_position_not_previous_velocity : ~ positionUsesPreviousVelocity.
Proof.
  intro H. destruct (H 0 (run [Jump]) eq_refl) as [_ Hy].
  vm_compute in Hy. discriminate Hy.
Qed.

(** C2, amended: in every frame in the playing state the velocity becomes
    the previous velocity plus the gravity constant 0.4, and the position
    becomes the previous position plus the NEW velocity (velocity first,
    then position; nothing else enters the update). *)
Theorem C2_gravity_then_position (rnd : Q) (w : World) :
  gameState w = playing ->
  GRAVITY == 0.4 /\
  velocity (playerRef (gameLoop rnd w)) = velocity (playerRef w) + GRAVITY /\
  player_y (playerRef (gameLoop rnd w)) =
    player_y (playerRef w) + velocity (playerRef (gameLoop rnd w)).
Proof.
  intro Hp. rewrite (gameLoop_playing rnd w Hp). cbn. repeat split.
Qed.

Lemma C2_gravity_then_position_witness :
  gameState (run [Jump]) = playing /\
  (GRAVITY == 0.4 /\
   velocity (playerRef (gameLoop 0 (run [Jump]))) =
     velocity (playerRef (run [Jump])) + GRAVITY /\
   player_y (playerRef (gameLoop 0 (run [Jump]))) =
     player_y (playerRef (run [Jump])) +
     velocity (playerRef (gameLoop 0 (run [Jump])))).
Proof.
  split; [reflexivity | apply (C2_gravity_then_position 0 (run [Jump])); reflexivity].
Defined.

(** ** C3: a bullet destroys the first pipe it intersects *)

(** A bullet is 10 wide and a pipe 50: a bullet that intersects a pipe
    cannot reach a pipe 300 further right. *)
Lemma no_double_hit (b : Bullet) (p q : Pipe) :
  bulletHitsPipe b p = true -> pipe_x p + 300 <= pipe_x q ->
  bulletHitsPipe b q = false.
Proof.
  intros Hp Hq. destruct (bulletHitsPipe b q) eqn:E; [|reflexivity].
  apply bulletHitsPipe_x in Hp. apply bulletHitsPipe_x in E. num_lra.
Qed.

Lemma removeFirstHit_spec (b : Bullet) (pipes pipes' : list Pipe) :
  removeFirstHit b pipes = Some pipes' ->
  exists pre p post,
    pipes = pre ++ p :: post /\ pipes' = pre ++ post /\
    bulletHitsPipe b p = true /\
    Forall (fun q => bulletHitsPipe b q = false) pre.
Proof.
  revert pipes'. induction pipes as [|p rest IH]; intros pipes' H; [discriminate H|].
  cbn [removeFirstHit] in H. destruct (bulletHitsPipe b p) eqn:E.
  - injection H as <-. exists [], p, rest. now repeat split.
  - destruct (removeFirstHit b rest) as [r|]; [|discriminate H].
    injection H as <-. destruct (IH r eq_refl) as (pre & q & post & -> & -> & Hq & Hpre).
    exists (p :: pre), q, post. repeat split; try assumption. now constructor.
Qed.

Lemma hitPipes_spaced (b : Bullet) (pipes : list Pipe) :
  spaced pipes -> hitPipes b pipes = hitFirstPipe b pipes.
Proof.
  unfold hitFirstPipe. induction 1 as [|p ps HF HS IH]; [reflexivity|].
  cbn [hitPipes removeFirstHit]. destruct (bulletHitsPipe b p) eqn:E.
  - assert (Hnone : forall q, In q ps -> bulletHitsPipe b q = false).
    { intros q Hq. rewrite Forall_forall in HF.
      apply (no_double_hit b p q E), HF, Hq. }
    rewrite hitPipes_eq.
    assert (E1 : filter (fun q => negb (bulletHitsPipe b q)) ps = ps).
    { clear -Hnone. induction ps as [|q ps IHps]; [reflexivity|].
      cbn [filter]. rewrite (Hnone q (or_introl eq_refl)). cbn [negb].
      f_equal. apply IHps. intros r Hr. apply Hnone. now right. }
    assert (E2 : filter (bulletHitsPipe b) ps = []).
    { clear -Hnone. induction ps as [|q ps IHps]; [reflexivity|].
      cbn [filter]. rewrite (Hnone q (or_introl eq_refl)).
      apply IHps. intros r Hr. apply Hnone. now right. }
    rewrite E1, E2. reflexivity.
  - rewrite IH. now destruct (removeFirstHit b ps).
Qed.

Lemma updateBullets_spaced (bullets : list Bullet) (pipes : list Pipe) :
  spaced pipes -> updateBullets bullets pipes = updateBulletsFirstHit bullets pipes.
Proof.
  revert pipes. induction bullets as [|b rest IH]; intros pipes Hs; [reflexivity|].
  cbn [updateBullets updateBulletsFirstHit].
  rewrite <- (hitPipes_spaced _ _ Hs).
  assert (Hs1 : spaced (fst (fst (hitPipes (moveBullet b) pipes)))).
  { rewrite hitPipes_eq. cbn [fst]. now apply spaced_filter. }
  destruct (hitPipes (moveBullet b) pipes) as [[pipes1 us] hit].
  cbn [fst] in Hs1. now rewrite (IH pipes1 Hs1).
Qed.

(** C3: in every frame of every run, the pass over the bullets does what
    the scan that stops at the first intersection does: for each bullet,
    after its move, the first pipe in collection order whose top or bottom
    segment it intersects is removed, the bullet is removed, and two points
    (more than the one point of a passed pipe) are queued; a bullet that
    intersects no pipe removes nothing and queues nothing. (The pipes of a
    run are at least 300 apart, so a bullet never intersects two.) *)
Theorem C3_bullet_destroys_first_pipe (es : list Event) (rnd : Q) :
  let w := run es in
  let firstHit := updateBulletsFirstHit (bulletsRef w) (scrolledPipes rnd w) in
  (PASS_POINTS < BONUS_POINTS)%Z /\
  updateBullets (bulletsRef w) (scrolledPipes rnd w) = firstHit /\
  (gameState w = playing ->
   bulletsRef (gameLoop rnd w) = fst (fst firstHit) /\
   pipesRef (gameLoop rnd w) = snd (fst firstHit) /\
   score (gameLoop rnd w) =
     (score w + PASS_POINTS * Z.of_nat (passedNow (movedPlayer w) (spawned rnd w)) +
      scoreDelta (snd firstHit))%Z) /\
  (forall b pipes pipes',
     removeFirstHit b pipes = Some pipes' ->
     exists pre p post,
       pipes = pre ++ p :: post /\ pipes' = pre ++ post /\
       bulletHitsPipe b p = true /\
       Forall (fun q => bulletHitsPipe b q = false) pre).
Proof.
  cbv zeta.
  destruct (Inv_scrolled rnd (run es) (Inv_run es)) as (Hs & _ & _).
  pose proof (updateBullets_spaced (bulletsRef (run es)) _ Hs) as E.
  split; [reflexivity|]. split; [exact E|]. split.
  - intro Hp. rewrite <- E, (gameLoop_playing rnd _ Hp).
    cbn [bulletsRef pipesRef score].
    destruct (updateBullets_updates (bulletsRef (run es))
                (scrolledPipes rnd (run es)) playing 0%Z) as (_ & _ & E3).
    rewrite E3, updateBullets_pipes. fold (survivors rnd (run es)).
    unfold PASS_POINTS. repeat split. lia.
  - apply removeFirstHit_spec.
Qed.

(** In the last frame of [crashRun] the bullet does hit a pipe: the pass
    removes that pipe and the bullet and queues the bonus. *)
Example crashRun_bullet_hits :
  let w := run crashRun in
  scrolledPipes 0 w = [mkPipe 94 50 120 false; mkPipe 394 50 120 false] /\
  map moveBullet (bulletsRef w) = [mkBullet 108 (992 # 5) true] /\
  updateBulletsFirstHit (bulletsRef w) (scrolledPipes 0 w) =
    ([], [mkPipe 394 50 120 false], [AddScore 2]).
Proof. vm_compute. repeat split. Qed.

(** ** C4: a pipe is scored once, when the player has passed it *)

Lemma pipeUpdates_points (sc hs : Z) (player : Player) (p : Pipe) :
  scoreDelta (pipeUpdates sc hs player p) =
  if justPassed player (movePipe p) then 1%Z else 0%Z.
Proof.
  unfold pipeUpdates. rewrite scoreDelta_app.
  destruct (playerHitsPipe player (movePipe p));
    rewrite ?scoreDelta_gameOverUpdates;
    now destruct (justPassed player (movePipe p)).
Qed.

Lemma justPassed_moved (player : Player) (p : Pipe) :
  justPassed player (movePipe p) =
  negb (passed p) && (pipe_x p - PIPE_SPEED + 50 <? player_x player).
Proof. reflexivity. Qed.

Lemma pipeLife_passed (sc hs : Z) (players : list Player) (p : Pipe) :
  passed p = true ->
  risingEdges true (passedFlags sc hs players p) = 0%nat /\
  fallingEdges true (passedFlags sc hs players p) = 0%nat /\
  lifePoints sc hs players p = 0%Z.
Proof.
  unfold passedFlags, lifePoints. revert p.
  induction players as [|player rest IH]; intros p Hp; [now repeat split|].
  cbn [pipeLife]. rewrite pipeCallback_eq. cbn [map flat_map fst snd].
  assert (Hp' : passed (scrollPipe player p) = true)
    by (rewrite scrollPipe_passed, Hp; reflexivity).
  destruct (IH _ Hp') as (I1 & I2 & I3).
  rewrite Hp', scoreDelta_app, pipeUpdates_points, justPassed_moved, Hp, I3.
  cbn [risingEdges fallingEdges negb andb]. rewrite I1, I2. now repeat split.
Qed.

Lemma pipeLife_flips (sc hs : Z) (players : list Player) (p : Pipe) :
  (risingEdges (passed p) (passedFlags sc hs players p) <= 1)%nat /\
  fallingEdges (passed p) (passedFlags sc hs players p) = 0%nat /\
  lifePoints sc hs players p =
  Z.of_nat (risingEdges (passed p) (passedFlags sc hs players p)).
Proof.
  revert p. induction players as [|player rest IH]; intro p.
  - cbn. repeat split. lia.
  - destruct (passed p) eqn:Hp.
    + destruct (pipeLife_passed sc hs (player :: rest) p Hp) as (I1 & I2 & I3).
      rewrite I1, I2, I3. repeat split. lia.
    + unfold passedFlags, lifePoints in *. cbn [pipeLife].
      rewrite pipeCallback_eq. cbn [map flat_map fst snd].
      rewrite scoreDelta_app, pipeUpdates_points, justPassed_moved, Hp.
      cbn [risingEdges fallingEdges negb andb].
      pose proof (scrollPipe_passed player p) as Hs. rewrite Hp in Hs.
      cbn [orb] in Hs. rewrite <- Hs.
      destruct (passed (scrollPipe player p)) eqn:Hp'.
      * destruct (pipeLife_passed sc hs rest _ Hp') as (I1 & I2 & I3).
        unfold passedFlags, lifePoints in I1, I2, I3.
        rewrite I1, I2, I3. repeat split. cbn. lia.
      * destruct (IH (scrollPipe player p)) as (I1 & I2 & I3).
        rewrite Hp' in *. rewrite I3. repeat split; try assumption; lia.
Qed.

(** C4: in the callback of the first [filter], a pipe that is not yet
    passed and whose right edge (x + 50, after the move) is strictly left
    of the player's x gets [passed = true] and queues exactly one point; in
    every other case the flag keeps its value and no point is queued. Over
    the whole life of a pipe, whatever the frames, the flag goes from false
    to true at most once, never back, and the points queued for it are that
    one flip. In a frame the score grows by one point per pipe passed in it
    (and two per pipe destroyed). *)
Theorem C4_pass_scored_once (sc hs : Z) (player : Player) (p : Pipe)
    (players : list Player) :
  let p' := fst (fst (pipeCallback sc hs player p)) in
  let us := snd (fst (pipeCallback sc hs player p)) in
  pipe_x p' = pipe_x p - PIPE_SPEED /\
  (passed p = false /\ pipe_x p' + 50 < player_x player ->
   passed p' = true /\ scoreDelta us = PASS_POINTS) /\
  (passed p = false /\ ~ pipe_x p' + 50 < player_x player ->
   passed p' = false /\ scoreDelta us = 0%Z) /\
  (passed p = true -> passed p' = true /\ scoreDelta us = 0%Z) /\
  (risingEdges (passed p) (passedFlags sc hs players p) <= 1)%nat /\
  fallingEdges (passed p) (passedFlags sc hs players p) = 0%nat /\
  lifePoints sc hs players p =
    (PASS_POINTS * Z.of_nat (risingEdges (passed p) (passedFlags sc hs players p)))%Z /\
  (forall (rnd : Q) (w : World),
     gameState w = playing ->
     score (gameLoop rnd w) =
     (score w + PASS_POINTS * Z.of_nat (passedNow (movedPlayer w) (spawned rnd w)) +
      BONUS_POINTS * (Z.of_nat (length (scrolledPipes rnd w)) -
                      Z.of_nat (length (pipesRef (gameLoop rnd w)))))%Z).
Proof.
  cbv zeta. rewrite pipeCallback_eq. cbn [fst snd].
  rewrite pipeUpdates_points, justPassed_moved, scrollPipe_passed, scrollPipe_x.
  unfold PASS_POINTS, BONUS_POINTS.
  destruct (pipeLife_flips sc hs players p) as (L1 & L2 & L3).
  split; [reflexivity|].
  split; [|split; [|split; [|split; [|split; [|split]]]]].
  - intros [Hp Hx]. apply Qltb_true in Hx. rewrite Hp, Hx. now split.
  - intros [Hp Hx].
    destruct (pipe_x p - PIPE_SPEED + 50 <? player_x player) eqn:E.
    + apply Qltb_true in E. contradiction.
    + rewrite Hp. now split.
  - intro Hp. rewrite Hp. now split.
  - exact L1.
  - exact L2.
  - rewrite L3. lia.
  - intros rnd w Hpl. rewrite (gameLoop_playing rnd w Hpl).
    cbn [score pipesRef]. lia.
Qed.

(** Frame 335 of [gapRun]: the first pipe moves from x = 30 to x = 28, its
    right edge is at 78, left of the player at 80; it is marked and brings
    one point. *)
Example pipe_passed_in_frame_335 :
  let w := run (gapRun 8 22) in
  frameCountRef w = 334%Z /\ score w = 0%Z /\
  pipesRef w = [mkPipe 30 150 120 false; mkPipe 330 150 120 false] /\
  gameState (gameLoop (2 # 7) w) = playing /\
  score (gameLoop (2 # 7) w) = 1%Z /\
  pipesRef (gameLoop (2 # 7) w) =
    [mkPipe 28 150 120 true; mkPipe 328 150 120 false].
Proof. vm_compute. repeat split. Qed.

(** ** C5: score and session best *)

Lemma frame_score_nondecreasing (rnd : Q) (w : World) :
  (score w <= score (gameLoop rnd w))%Z.
Proof.
  destruct (GameState_eqb (gameState w) playing) eqn:E.
  - assert (Hp : gameState w = playing) by (destruct (gameState w); now try discriminate).
    rewrite (gameLoop_playing rnd w Hp). cbn [score]. unfold survivors.
    pose proof (length_filter_le (fun p => negb (destroyed (bulletsRef w) p))
                  (scrolledPipes rnd w)).
    lia.
  - rewrite gameLoop_idle; [lia|]. intro Hc. rewrite Hc in E. discriminate E.
Qed.

(** No event of a round lowers the score (a jump in the game-over state
    starts a new round at 0). *)
Lemma step_score_nondecreasing (w : World) (e : Event) :
  gameState w = playing -> (score w <= score (step w e))%Z.
Proof.
  intro Hp. destruct e as [rnd | |]; cbn [step].
  - apply frame_score_nondecreasing.
  - unfold jump. rewrite Hp. cbn. lia.
  - unfold shoot. rewrite Hp. cbn. lia.
Qed.

(** When a frame ends the round, the session best becomes the larger of
    its value and the score the frame STARTED with; otherwise it stays. *)
Lemma frame_highScore (rnd : Q) (w : World) :
  gameState w = playing ->
  highScore (gameLoop rnd w) =
  if crashed rnd w then Z.max (highScore w) (score w) else highScore w.
Proof.
  intro Hp. rewrite (gameLoop_playing rnd w Hp). cbn [highScore].
  destruct (crashed rnd w); cbn [andb]; [|reflexivity].
  destruct (score w >? highScore w)%Z eqn:E; lia.
Qed.

Lemma step_highScore_nondecreasing (w : World) (e : Event) :
  (highScore w <= highScore (step w e))%Z.
Proof.
  destruct e as [rnd | |]; cbn [step].
  - destruct (GameState_eqb (gameState w) playing) eqn:E.
    + assert (Hp : gameState w = playing) by (destruct (gameState w); now try discriminate).
      rewrite (frame_highScore rnd w Hp). destruct (crashed rnd w); lia.
    + rewrite gameLoop_idle; [lia|]. intro Hc. rewrite Hc in E. discriminate E.
  - unfold jump. destruct (gameState w); cbn; lia.
  - unfold shoot. destruct (gameState w); cbn; lia.
Qed.

(** C5 fails on the code: the round of [crashRun] ends in the frame in
    which its only two points are scored. The score is 2 when the game is
    over, and the session best, taken from the score the frame started
    with, is still 0: it is not the maximum of the scores of the completed
    rounds. *)
Theorem C5_last_frame_points_missed :
  let w := run crashRun in
  let w' := gameLoop 0 w in
  gameState w = playing /\ score w = 0%Z /\ highScore w = 0%Z /\
  gameState w' = gameOver /\ score w' = 2%Z /\ highScore w' = 0%Z /\
  (highScore w' < Z.max (highScore w) (score w'))%Z.
Proof.
  cbv zeta. destruct crashRun_facts as (_ & ->).
  rewrite crashRun_world. cbn. repeat split.
Qed.

(** ** C6: restart *)

(** C6: a jump in the game-over state moves to the start state and resets
    the player (x = 80, y = 250, velocity = 0, rotation = 0), both
    collections, the frame counter and the score; the session best stays. *)
Theorem C6_jump_after_game_over_resets (w : World) :
  gameState w = gameOver ->
  jump w = mkWorld start 0 (highScore w) (mkPlayer 80 250 0 0) [] [] 0.
Proof.
  intro Hg. unfold jump. rewrite Hg. reflexivity.
Qed.

Lemma C6_jump_after_game_over_resets_witness :
  gameState (run climbRun) = gameOver /\
  jump (run climbRun) =
  mkWorld start 0 (highScore (run climbRun)) (mkPlayer 80 250 0 0) [] [] 0.
Proof.
  split; [vm_compute; reflexivity |
          apply (C6_jump_after_game_over_resets (run climbRun)); vm_compute; reflexivity].
Defined.

(** ** C7: removal in the same frame *)

Lemma updateBullets_app (pre post : list Bullet) (pipes : list Pipe) :
  updateBullets (pre ++ post) pipes =
  (keptBullets pre pipes ++
   keptBullets post (snd (fst (updateBullets pre pipes))),
   snd (fst (updateBullets post (snd (fst (updateBullets pre pipes))))),
   snd (updateBullets pre pipes) ++
   snd (updateBullets post (snd (fst (updateBullets pre pipes))))).
Proof.
  unfold keptBullets. revert pipes.
  induction pre as [|b pre IH]; intro pipes.
  - cbn. now destruct (updateBullets post pipes) as [[k p] u].
  - cbn [app updateBullets].
    destruct (hitPipes (moveBullet b) pipes) as [[pipes1 us] hit].
    rewrite (IH pipes1).
    destruct (updateBullets pre pipes1) as [[k1 p1] u1]. cbn [fst snd].
    destruct (updateBullets post p1) as [[k2 p2] u2]. cbn [fst snd].
    rewrite app_assoc.
    now destruct ((bullet_x (moveBullet b) <? GAME_WIDTH) && negb hit).
Qed.

Lemma keptBullets_one (b : Bullet) (post : list Bullet) (pipes : list Pipe) :
  keptBullets (b :: post) pipes =
  (if leftField (moveBullet b) || existsb (bulletHitsPipe (moveBullet b)) pipes
   then [] else [moveBullet b]) ++
  keptBullets post (filter (fun p => negb (destroyed [b] p)) pipes).
Proof.
  unfold keptBullets, leftField. cbn [updateBullets]. rewrite hitPipes_eq.
  assert (E : filter (fun p => negb (destroyed [b] p)) pipes =
              filter (fun p => negb (bulletHitsPipe (moveBullet b) p)) pipes).
  { apply filter_ext. intro p. cbn. now rewrite orb_false_r. }
  rewrite E.
  destruct (updateBullets post _) as [[k p] u]. cbn [fst snd].
  destruct (bullet_x (moveBullet b) <? GAME_WIDTH);
    destruct (existsb (bulletHitsPipe (moveBullet b)) pipes); reflexivity.
Qed.

Lemma destroyed_app (pre post : list Bullet) (p : Pipe) :
  destroyed (pre ++ post) p = destroyed pre p || destroyed post p.
Proof. apply existsb_app. Qed.

(** A bullet that stays is inside the play-field and intersects none of the
    pipes that stay. *)
Lemma updateBullets_clean (bullets : list Bullet) (pipes : list Pipe) :
  forall b', In b' (keptBullets bullets pipes) ->
  bullet_x b' < GAME_WIDTH /\
  forall p, In p (snd (fst (updateBullets bullets pipes))) ->
            bulletHitsPipe b' p = false.
Proof.
  revert pipes. induction bullets as [|b rest IH]; intros pipes b' Hin.
  - destruct Hin.
  - rewrite keptBullets_one in Hin.
    assert (Hfin : forall p, In p (snd (fst (updateBullets (b :: rest) pipes))) ->
                   In p (snd (fst (updateBullets rest
                     (filter (fun p => negb (destroyed [b] p)) pipes))))).
    { intros p Hp. rewrite updateBullets_pipes in *.
      rewrite filter_filter. apply filter_In in Hp. apply filter_In.
      destruct Hp as [Hp1 Hp2]. split; [exact Hp1|].
      change (b :: rest) with ([b] ++ rest) in Hp2.
      now rewrite destroyed_app, negb_orb in Hp2. }
    apply in_app_or in Hin. destruct Hin as [Hin | Hin].
    + destruct (leftField (moveBullet b)) eqn:El; [destruct Hin|].
      destruct (existsb (bulletHitsPipe (moveBullet b)) pipes) eqn:Eh; [destruct Hin|].
      destruct Hin as [<- | []]. split.
      * unfold leftField in El. apply negb_false_iff in El. now apply Qltb_true.
      * intros p Hp. rewrite updateBullets_pipes in Hp.
        apply filter_In in Hp. destruct Hp as [Hp _].
        destruct (bulletHitsPipe (moveBullet b) p) eqn:E; [|reflexivity].
        assert (existsb (bulletHitsPipe (moveBullet b)) pipes = true)
          by (apply existsb_exists; eauto).
        congruence.
    + destruct (IH _ b' Hin) as [Hx Hp]. split; [exact Hx|].
      intros p Hpin. apply Hp, Hfin, Hpin.
Qed.

Lemma pastLeftMargin_iff (p : Pipe) :
  pastLeftMargin p = true <-> pipe_x p <= -60.
Proof.
  unfold pastLeftMargin. rewrite negb_true_iff. apply Qgtb_false.
Qed.

(** A pipe the test drops is behind the left edge with its whole width of
    50: the test waits ten more pixels. *)
Lemma pastLeftMargin_off_screen (p : Pipe) :
  pastLeftMargin p = true -> fullyOffScreenLeft p = true.
Proof.
  intro H. apply pastLeftMargin_iff in H. apply Qltb_true. num_lra.
Qed.

(** Five frames after a pipe has left the screen the test drops it. *)
Lemma scrollFrames_past_margin (players : list Player) (p : Pipe) :
  length players = 5%nat -> fullyOffScreenLeft p = true ->
  pastLeftMargin (scrollFrames players p) = true.
Proof.
  intros Hl Hp. apply Qltb_true in Hp. apply pastLeftMargin_iff.
  destruct players as [|p1 [|p2 [|p3 [|p4 [|p5 [|p6 rest]]]]]]; try discriminate Hl.
  unfold scrollFrames. cbn [fold_left]. rewrite !scrollPipe_x.
  unfold PIPE_SPEED. num_lra.
Qed.

(** Frame 375 of [gapRun]: the first pipe is at x = -52, its right edge at
    -2, and it is still in the collection. *)
Lemma gapRun_frame_375 :
  gameState (run (gapRun 9 23)) = playing /\
  pipesRef (run (gapRun 9 23)) =
    [mkPipe (-50) 150 120 true; mkPipe 250 150 120 false] /\
  pipesRef (gameLoop (2 # 7) (run (gapRun 9 23))) =
    [mkPipe (-52) 150 120 true; mkPipe 248 150 120 false].
Proof. vm_compute. repeat split. Qed.

(** C7, as stated, fails for the pipes: in frame 375 of [gapRun] the first
    pipe has scrolled fully off the screen (x = -52, right edge at -2) and
    is kept; it stays in the collection through frame 378 (x = -58) and is
    removed in frame 379, when x reaches -60. *)
Lemma C7_off_screen_pipe_is_kept : ~ offScreenPipesRemovedAtOnce.
Proof.
  intro H. destruct gapRun_frame_375 as (Hp & _ & Hq).
  specialize (H (2 # 7) (run (gapRun 9 23)) Hp). rewrite Hq in H.
  inversion H as [|? ? Hoff _]. discriminate Hoff.
Qed.

(** C7, amended: in a frame in the playing state every entity is removed
    in the frame in which its removal test first holds, and the test of a
    pipe is not "fully off the screen" but "x at or below -60":
    - the pipes that stay are exactly the moved pipes whose x is above -60
      and that no bullet of the frame hits; a pipe the test drops is fully
      off the screen (ten pixels past it), and a pipe that is fully off the
      screen is dropped after five more frames at the latest;
    - a bullet is dropped exactly when, after its move, it has left the
      play-field on the right (x not below 400) or hits a pipe still in the
      collection at its turn; the bullets before and after it are treated
      the same way;
    - so after the frame every pipe has x above -60, every bullet has x
      below 400, and no bullet that stays intersects a pipe that stays:
      nothing whose removal test holds is carried into the next frame. *)
Theorem C7_removed_in_the_same_frame (rnd : Q) (w : World) :
  gameState w = playing ->
  let w' := gameLoop rnd w in
  pipesRef w' =
    filter (fun p => negb (pastLeftMargin p || destroyed (bulletsRef w) p))
      (map (scrollPipe (movedPlayer w)) (spawned rnd w)) /\
  (forall p, pastLeftMargin p = true <-> pipe_x p <= -60) /\
  (forall p, pastLeftMargin p = true -> fullyOffScreenLeft p = true) /\
  (forall players p,
     length players = 5%nat -> fullyOffScreenLeft p = true ->
     pastLeftMargin (scrollFrames players p) = true) /\
  (forall (pre post : list Bullet) (b : Bullet),
     bulletsRef w = pre ++ b :: post ->
     let pipes := filter (fun p => negb (destroyed pre p)) (scrolledPipes rnd w) in
     bulletsRef w' =
       keptBullets pre (scrolledPipes rnd w) ++
       (if leftField (moveBullet b) || existsb (bulletHitsPipe (moveBullet b)) pipes
        then [] else [moveBullet b]) ++
       keptBullets post (filter (fun p => negb (destroyed [b] p)) pipes)) /\
  Forall (fun p => -60 < pipe_x p) (pipesRef w') /\
  Forall (fun b => bullet_x b < 400) (bulletsRef w') /\
  (forall b p, In b (bulletsRef w') -> In p (pipesRef w') ->
               bulletHitsPipe b p = false).
Proof.
  intro Hp. cbv zeta. rewrite (gameLoop_playing rnd w Hp).
  cbn [pipesRef bulletsRef].
  split; [|split; [|split; [|split; [|split; [|split; [|split]]]]]].
  - unfold survivors, scrolledPipes. rewrite filter_filter.
    apply filter_ext. intro p. unfold pastLeftMargin, onScreen.
    now rewrite negb_orb, negb_involutive.
  - apply pastLeftMargin_iff.
  - apply pastLeftMargin_off_screen.
  - apply scrollFrames_past_margin.
  - intros pre post b Hb. rewrite Hb, updateBullets_app. cbn [fst].
    rewrite updateBullets_pipes, keptBullets_one. reflexivity.
  - unfold survivors, scrolledPipes. rewrite Forall_forall. intros p Hin.
    apply filter_In in Hin. destruct Hin as [Hin _].
    apply filter_In in Hin. destruct Hin as [_ Hin].
    unfold onScreen in Hin. now apply Qgtb_true in Hin.
  - rewrite Forall_forall. intros b Hin.
    apply (updateBullets_clean (bulletsRef w) (scrolledPipes rnd w)) in Hin.
    destruct Hin as [Hx _]. exact Hx.
  - intros b p Hb Hpin.
    apply (updateBullets_clean (bulletsRef w) (scrolledPipes rnd w)) in Hb.
    destruct Hb as [_ Hb]. apply Hb. rewrite updateBullets_pipes. exact Hpin.
Qed.

Lemma C7_removed_in_the_same_frame_witness :
  gameState (run crashRun) = playing /\
  let w := run crashRun in
  let w' := gameLoop 0 w in
  pipesRef w' =
    filter (fun p => negb (pastLeftMargin p || destroyed (bulletsRef w) p))
      (map (scrollPipe (movedPlayer w)) (spawned 0 w)) /\
  (forall p, pastLeftMargin p = true <-> pipe_x p <= -60) /\
  (forall p, pastLeftMargin p = true -> fullyOffScreenLeft p = true) /\
  (forall players p,
     length players = 5%nat -> fullyOffScreenLeft p = true ->
     pastLeftMargin (scrollFrames players p) = true) /\
  (forall (pre post : list Bullet) (b : Bullet),
     bulletsRef w = pre ++ b :: post ->
     let pipes := filter (fun p => negb (destroyed pre p)) (scrolledPipes 0 w) in
     bulletsRef w' =
       keptBullets pre (scrolledPipes 0 w) ++
       (if leftField (moveBullet b) || existsb (bulletHitsPipe (moveBullet b)) pipes
        then [] else [moveBullet b]) ++
       keptBullets post (filter (fun p => negb (destroyed [b] p)) pipes)) /\
  Forall (fun p => -60 < pipe_x p) (pipesRef w') /\
  Forall (fun b => bullet_x b < 400) (bulletsRef w') /\
  (forall b p, In b (bulletsRef w') -> In p (pipesRef w') ->
               bulletHitsPipe b p = false).
Proof.
  split; [exact crashRun_playing |
          apply (C7_removed_in_the_same_frame 0 (run crashRun)); exact crashRun_playing].
Defined.

(** Frames 378 and 379 of [gapRun]: the first pipe, passed long ago, goes
    from x = -58 to x = -60 and is dropped in that frame. *)
Example pipe_removed_in_frame_379 :
  let w := run (gapRun 9 27) in
  frameCountRef w = 378%Z /\
  pipesRef w = [mkPipe (-58) 150 120 true; mkPipe 242 150 120 false] /\
  pipesRef (gameLoop (2 # 7) w) = [mkPipe 240 150 120 false] /\
  score (gameLoop (2 # 7) w) = score w.
Proof. vm_compute. repeat split. Qed.

(** ** C8: the spawner *)

(** C8: a frame in the playing state adds one to the frame counter; when
    the new value is a multiple of 150 the spawner appends exactly one pipe,
    at x = 400, with gap 120, not passed, and a top height that is the
    draw [rnd] of [Math.random()] (in [0, 1)) rescaled to 50 + 350 * rnd,
    hence within [50, 400]; otherwise it appends nothing. The pipes of the
    frame are then moved and filtered as in every frame. *)
Theorem C8_spawn_every_150_frames (rnd : Q) (w : World) :
  gameState w = playing ->
  0 <= rnd /\ rnd < 1 ->
  frameCountRef (gameLoop rnd w) = (frameCountRef w + 1)%Z /\
  pipesRef (gameLoop rnd w) =
    filter (fun p => negb (destroyed (bulletsRef w) p))
      (filter onScreen (map (scrollPipe (movedPlayer w)) (spawned rnd w))) /\
  (Z.rem (frameCountRef w + 1) 150 = 0%Z ->
   exists q : Pipe,
     spawned rnd w = pipesRef w ++ [q] /\
     pipe_x q = 400 /\ gap q = 120 /\ passed q = false /\
     topHeight q == 50 + 350 * rnd /\
     50 <= topHeight q /\ topHeight q < 400) /\
  (Z.rem (frameCountRef w + 1) 150 <> 0%Z -> spawned rnd w = pipesRef w).
Proof.
  intros Hp [H0 H1]. rewrite (gameLoop_playing rnd w Hp).
  cbn [frameCountRef pipesRef]. split; [reflexivity|]. split; [reflexivity|].
  unfold spawned, spawnPipes, PIPE_SPAWN_RATE. split; intro Hr.
  - rewrite Hr. cbn [Z.eqb]. exists (newPipe rnd).
    unfold newPipe, GAME_WIDTH, GAME_HEIGHT. cbn [pipe_x gap passed topHeight].
    change (600 - 200 - 50) with 350.
    repeat split; try reflexivity; num_lra.
  - apply Z.eqb_neq in Hr. now rewrite Hr.
Qed.

Lemma C8_spawn_every_150_frames_witness :
  gameState (run hoverRun) = playing /\
  (0 <= 1 # 2 /\ 1 # 2 < 1) /\
  (frameCountRef (gameLoop (1 # 2) (run hoverRun)) =
     (frameCountRef (run hoverRun) + 1)%Z /\
   pipesRef (gameLoop (1 # 2) (run hoverRun)) =
     filter (fun p => negb (destroyed (bulletsRef (run hoverRun)) p))
       (filter onScreen
          (map (scrollPipe (movedPlayer (run hoverRun)))
             (spawned (1 # 2) (run hoverRun)))) /\
   (Z.rem (frameCountRef (run hoverRun) + 1) 150 = 0%Z ->
    exists q : Pipe,
      spawned (1 # 2) (run hoverRun) = pipesRef (run hoverRun) ++ [q] /\
      pipe_x q = 400 /\ gap q = 120 /\ passed q = false /\
      topHeight q == 50 + 350 * (1 # 2) /\
      50 <= topHeight q /\ topHeight q < 400) /\
   (Z.rem (frameCountRef (run hoverRun) + 1) 150 <> 0%Z ->
    spawned (1 # 2) (run hoverRun) = pipesRef (run hoverRun))).
Proof.
  split; [vm_compute; reflexivity|].
  split; [split; lra|].
  apply (C8_spawn_every_150_frames (1 # 2) (run hoverRun));
    [vm_compute; reflexivity | split; lra].
Defined.

(** The frame of the witness does spawn: its counter reaches 150. *)
Example hoverRun_spawns :
  frameCountRef (run hoverRun) = 149%Z /\
  pipesRef (run hoverRun) = [] /\
  spawned (1 # 2) (run hoverRun) = [mkPipe 400 225 120 false] /\
  frameCountRef (gameLoop (1 # 2) (run hoverRun)) = 150%Z /\
  pipesRef (gameLoop (1 # 2) (run hoverRun)) = [mkPipe 398 225 120 false].
Proof. vm_compute. repeat split. Qed.

(** ** C9: the bounds are strict *)

Lemma outOfBounds_iff (p : Player) :
  outOfBounds p = true <-> 560 < player_y p \/ player_y p < 0.
Proof.
  unfold outOfBounds, GAME_HEIGHT. rewrite orb_true_iff, Qgtb_true, Qltb_true.
  split; (intros [H | H]; [left | right]); num_lra.
Qed.

(** C9: the floor and ceiling test is strict. A player whose position after
    the move is exactly 560 or exactly 0 is within bounds: the test queues
    nothing, and the frame goes on in the playing state unless a pipe is
    hit. A position above 560 or below 0 ends the round. *)
Theorem C9_bounds_are_strict (rnd : Q) (w : World) :
  gameState w = playing ->
  let y := player_y (playerRef (gameLoop rnd w)) in
  (y == 560 \/ y == 0 ->
   checkBounds (score w) (highScore w) (movedPlayer w) = [] /\
   (hitsSomePipe (movedPlayer w) (spawned rnd w) = false ->
    gameState (gameLoop rnd w) = playing)) /\
  (560 < y \/ y < 0 -> gameState (gameLoop rnd w) = gameOver) /\
  (outOfBounds (movedPlayer w) = true <-> 560 < y \/ y < 0).
Proof.
  intro Hp. rewrite (gameLoop_playing rnd w Hp).
  cbn [playerRef gameState]. cbv zeta.
  pose proof (outOfBounds_iff (movedPlayer w)) as Hiff.
  split; [|split].
  - intro Hy.
    assert (Hb : outOfBounds (movedPlayer w) = false).
    { destruct (outOfBounds (movedPlayer w)); [|reflexivity].
      destruct Hiff as [Hiff _]. specialize (Hiff eq_refl).
      destruct Hy as [Hy | Hy], Hiff as [Hl | Hl]; rewrite Hy in Hl; num_lra. }
    unfold checkBounds, crashed. rewrite Hb. split; [reflexivity|].
    intro Hn. now rewrite Hn.
  - intro Hy. apply Hiff in Hy. unfold crashed. now rewrite Hy.
  - exact Hiff.
Qed.

Lemma C9_bounds_are_strict_witness :
  gameState onTheFloor = playing /\
  let y := player_y (playerRef (gameLoop 0 onTheFloor)) in
  (y == 560 \/ y == 0 ->
   checkBounds (score onTheFloor) (highScore onTheFloor) (movedPlayer onTheFloor) = [] /\
   (hitsSomePipe (movedPlayer onTheFloor) (spawned 0 onTheFloor) = false ->
    gameState (gameLoop 0 onTheFloor) = playing)) /\
  (560 < y \/ y < 0 -> gameState (gameLoop 0 onTheFloor) = gameOver) /\
  (outOfBounds (movedPlayer onTheFloor) = true <-> 560 < y \/ y < 0).
Proof.
  split; [reflexivity | apply (C9_bounds_are_strict 0 onTheFloor); reflexivity].
Defined.

(** At exactly 560 the round goes on; one frame later, at 568.4, it ends. *)
Example onTheFloor_frames :
  player_y (playerRef (gameLoop 0 onTheFloor)) == 560 /\
  gameState (gameLoop 0 onTheFloor) = playing /\
  gameState (gameLoop 0 (gameLoop 0 onTheFloor)) = gameOver.
Proof. vm_compute. repeat split. Qed.

(** ** C10: a passed pipe is out of reach of the bullets *)

Lemma passed_pipe_not_hit (rnd : Q) (w : World) (p : Pipe) :
  Inv w -> In p (scrolledPipes rnd w) -> passed p = true ->
  destroyed (bulletsRef w) p = false.
Proof.
  intros HI Hin Hp.
  destruct (Inv_scrolled rnd w HI) as (_ & Hpass & _).
  rewrite Forall_forall in Hpass. specialize (Hpass p Hin Hp).
  pose proof (inv_bullets w HI) as Hb. rewrite Forall_forall in Hb.
  unfold destroyed.
  destruct (existsb _ (bulletsRef w)) eqn:E; [|reflexivity].
  apply existsb_exists in E. destruct E as (b & Hbin & Hhit).
  apply bulletHitsPipe_x in Hhit. destruct Hhit as [Hhit _].
  specialize (Hb b Hbin). cbn [moveBullet bullet_x] in Hhit.
  unfold BULLET_SPEED in Hhit. num_lra.
Qed.

(** C10, as stated, fails: no run has a frame in which a passed pipe is
    destroyed. *)
Lemma C10_passed_pipe_never_destroyed : ~ passedPipeDestroyed.
Proof.
  intros (es & rnd & p & _ & Hin & Hp & Hd).
  rewrite (passed_pipe_not_hit rnd (run es) p (Inv_run es) Hin Hp) in Hd.
  discriminate Hd.
Qed.

(** C10, amended: the collision test of a bullet does not read the
    [passed] flag, so a passed pipe that a bullet intersected would be
    destroyed and bring the two bonus points; but in every frame of every
    run the passed pipes lie left of x = 80 (their right edge is behind the
    player) while the hitbox of every bullet starts at x = 103 or further
    right, so every pipe that is destroyed is a pipe that was not passed:
    no pipe brings both the pass point and the bonus. *)
Theorem C10_destroyed_pipes_were_not_passed (es : list Event) (rnd : Q) :
  let w := run es in
  (forall b p f,
     bulletHitsPipe b (mkPipe (pipe_x p) (topHeight p) (gap p) f) =
     bulletHitsPipe b p) /\
  Forall (fun p => passed p = true -> pipe_x p + 50 < 80) (scrolledPipes rnd w) /\
  Forall (fun b => 103 <= rect_x (bulletHitbox (moveBullet b))) (bulletsRef w) /\
  Forall (fun p => destroyed (bulletsRef w) p = true -> passed p = false)
    (scrolledPipes rnd w).
Proof.
  cbv zeta. pose proof (Inv_run es) as HI.
  destruct (Inv_scrolled rnd (run es) HI) as (_ & Hpass & _).
  split; [|split; [|split]].
  - intros b p f. apply bulletHitsPipe_passed.
  - exact Hpass.
  - pose proof (inv_bullets _ HI) as Hb.
    eapply Forall_impl; [|exact Hb]. cbn. intros b H.
    unfold BULLET_SPEED. num_lra.
  - rewrite Forall_forall. intros p Hin Hd.
    destruct (passed p) eqn:Hp; [|reflexivity].
    rewrite (passed_pipe_not_hit rnd (run es) p HI Hin Hp) in Hd.
    discriminate Hd.
Qed.

(** * Further properties of the code *)

(** ** checkCollision *)

Lemma checkCollision_iff (a b : Rect) :
  checkCollision a b = true <->
  rect_x a < rect_x b + rect_w b /\ rect_x b < rect_x a + rect_w a /\
  rect_y a < rect_y b + rect_h b /\ rect_y b < rect_y a + rect_h a.
Proof.
  unfold checkCollision. rewrite !andb_true_iff, !Qltb_true, !Qgtb_true. tauto.
Qed.

(** X1: [checkCollision] does not depend on the order of its arguments, and
    it holds exactly when the rectangles overlap strictly on both axes:
    rectangles that only touch along an edge, or lie apart, do not
    collide. *)
Theorem X1_checkCollision_symmetric_strict (a b : Rect) :
  checkCollision a b = checkCollision b a /\
  (checkCollision a b = true <->
   rect_x a < rect_x b + rect_w b /\ rect_x b < rect_x a + rect_w a /\
   rect_y a < rect_y b + rect_h b /\ rect_y b < rect_y a + rect_h a) /\
  (rect_x a + rect_w a <= rect_x b \/ rect_y a + rect_h a <= rect_y b ->
   checkCollision a b = false).
Proof.
  split; [|split].
  - destruct (checkCollision a b) eqn:E1, (checkCollision b a) eqn:E2;
      try reflexivity.
    + apply checkCollision_iff in E1. apply not_true_iff_false in E2.
      exfalso. apply E2, checkCollision_iff. tauto.
    + apply checkCollision_iff in E2. apply not_true_iff_false in E1.
      exfalso. apply E1, checkCollision_iff. tauto.
  - apply checkCollision_iff.
  - intro H. apply not_true_iff_false. intro E.
    apply checkCollision_iff in E. destruct H; num_lra.
Qed.

(** ** The player and a pipe *)

(** X2: for a player at x = 80 whose hitbox reaches below the top of the
    play-field and starts above the end of the bottom segment, a pipe is
    hit exactly when it overlaps the player horizontally (15 < x < 95) and
    the 30-high hitbox does not fit in the gap: it starts above the end of
    the top segment or ends below the start of the bottom one. *)
Theorem X2_player_hits_pipe_iff (player : Player) (p : Pipe) :
  player_x player = 80 ->
  -15 < player_y player ->
  player_y player < topHeight p + gap p + 615 ->
  (playerHitsPipe player p = true <->
   (15 < pipe_x p /\ pipe_x p < 95) /\
   (player_y player - 15 < topHeight p \/
    topHeight p + gap p < player_y player + 15)).
Proof.
  intros Hx Hy1 Hy2. unfold playerHitsPipe.
  rewrite orb_true_iff, !checkCollision_iff.
  unfold playerHitbox, topPipe, bottomPipe, GAME_HEIGHT.
  cbn [rect_x rect_y rect_w rect_h]. rewrite Hx.
  split.
  - intros [(h1 & h2 & h3 & h4) | (h1 & h2 & h3 & h4)].
    + split; [split; num_lra | left; num_lra].
    + split; [split; num_lra | right; num_lra].
  - intros [[H1 H2] [H | H]]; [left | right]; repeat split; num_lra.
Qed.

Lemma X2_player_hits_pipe_iff_witness :
  let player := mkPlayer 80 192 (18 # 5) (54 # 5) in
  let p := mkPipe 94 50 120 false in
  player_x player = 80 /\
  -15 < player_y player /\
  player_y player < topHeight p + gap p + 615 /\
  (playerHitsPipe player p = true <->
   (15 < pipe_x p /\ pipe_x p < 95) /\
   (player_y player - 15 < topHeight p \/
    topHeight p + gap p < player_y player + 15)).
Proof.
  cbv zeta. split; [reflexivity|]. split; [reflexivity|]. split; [reflexivity|].
  apply (X2_player_hits_pipe_iff (mkPlayer 80 192 (18 # 5) (54 # 5))
           (mkPipe 94 50 120 false)); reflexivity.
Defined.

(** ** Rotation *)

(** X3: after a frame in the playing state the rotation of the player is
    three times its new velocity clamped to [-30, 45]: it is within that
    range, it is -30 for a velocity of -10 or less, 45 for a velocity of 15
    or more, and 3 * velocity in between. *)
Theorem X3_rotation_clamped (rnd : Q) (w : World) :
  gameState w = playing ->
  let player := playerRef (gameLoop rnd w) in
  (-30 <= rotation player /\ rotation player <= 45) /\
  (velocity player <= -10 -> rotation player == -30) /\
  (15 <= velocity player -> rotation player == 45) /\
  (-10 <= velocity player /\ velocity player <= 15 ->
   rotation player == 3 * velocity player).
Proof.
  intro Hp. rewrite (gameLoop_playing rnd w Hp). cbn [playerRef]. cbv zeta.
  unfold movedPlayer, applyGravity. cbn [rotation velocity].
  set (v := velocity (playerRef w) + GRAVITY).
  destruct (Q.max_spec (v * 3) (-30)) as [[H1 E1] | [H1 E1]];
    destruct (Q.min_spec (Qmax (v * 3) (-30)) 45) as [[H2 E2] | [H2 E2]];
    rewrite E2; rewrite E1 in *;
    (split; [split|split; [|split]]); intros; try num_lra.
Qed.

Lemma X3_rotation_clamped_witness :
  gameState (run [Jump]) = playing /\
  let player := playerRef (gameLoop 0 (run [Jump])) in
  (-30 <= rotation player /\ rotation player <= 45) /\
  (velocity player <= -10 -> rotation player == -30) /\
  (15 <= velocity player -> rotation player == 45) /\
  (-10 <= velocity player /\ velocity player <= 15 ->
   rotation player == 3 * velocity player).
Proof.
  split; [reflexivity | apply (X3_rotation_clamped 0 (run [Jump])); reflexivity].
Defined.

(** ** Frames of gravity *)


(** ** Phases *)

(** X5: the phase after an event is one the table [mayFollow] allows: a
    jump leads from start to playing, keeps playing, and leads from game
    over to start; a frame keeps the phase or ends a round in progress; a
    shot never changes the phase. No event leads from start to game over,
    from game over to playing, or from playing to start. *)
Theorem X5_phase_transitions (w : World) (e : Event) :
  mayFollow (gameState w) e (gameState (step w e)) = true.
Proof.
  destruct e as [rnd | |]; cbn [step].
  - destruct (gameState w) eqn:Hg.
    + rewrite gameLoop_idle by congruence. now rewrite Hg.
    + rewrite (gameLoop_playing rnd w Hg). cbn [gameState].
      now destruct (crashed rnd w).
    + rewrite gameLoop_idle by congruence. now rewrite Hg.
  - unfold jump. destruct (gameState w) eqn:Hg; cbn; now rewrite ?Hg.
  - unfold shoot. destruct (gameState w) eqn:Hg; cbn [gameState];
      now rewrite ?Hg.
Qed.

Lemma step_idle (w : World) (e : Event) :
  gameState w <> playing -> isJump e = false -> step w e = w.
Proof.
  intros Hg He. destruct e as [rnd | |]; cbn [step].
  - now apply gameLoop_idle.
  - discriminate He.
  - unfold shoot. destruct (gameState w); congruence.
Qed.

Lemma fold_idle (w : World) (es : list Event) :
  gameState w <> playing ->
  forallb (fun e => negb (isJump e)) es = true ->
  fold_left step es w = w.
Proof.
  intros Hg. induction es as [|e es IH]; intro Hes; [reflexivity|].
  cbn [forallb] in Hes. apply andb_true_iff in Hes. destruct Hes as [He Hes].
  apply negb_true_iff in He. cbn [fold_left].
  rewrite (step_idle w e Hg He). now apply IH.
Qed.

(** X6: outside the playing state the world is frozen: whatever frames and
    shots arrive on the start screen or on the game-over screen, in any
    number and order, nothing changes until a jump. *)
Theorem X6_frozen_outside_playing (w : World) (es : list Event) :
  gameState w <> playing ->
  forallb (fun e => negb (isJump e)) es = true ->
  fold_left step es w = w /\
  (forall rnd, gameLoop rnd w = w) /\ shoot w = w.
Proof.
  intros Hg Hes. split; [now apply fold_idle|]. split.
  - intro rnd. now apply gameLoop_idle.
  - unfold shoot. destruct (gameState w); congruence.
Qed.

Lemma X6_frozen_outside_playing_witness :
  gameState (run climbRun) <> playing /\
  forallb (fun e => negb (isJump e)) [Frame 0; Shoot; Frame (1 # 2); Shoot] = true /\
  (fold_left step [Frame 0; Shoot; Frame (1 # 2); Shoot] (run climbRun) =
   run climbRun /\
   (forall rnd, gameLoop rnd (run climbRun) = run climbRun) /\
   shoot (run climbRun) = run climbRun).
Proof.
  assert (H : gameState (run climbRun) <> playing)
    by (vm_compute; discriminate).
  split; [exact H|]. split; [reflexivity|].
  apply (X6_frozen_outside_playing (run climbRun)
           [Frame 0; Shoot; Frame (1 # 2); Shoot] H).
  reflexivity.
Defined.

(** ** jump and shoot *)

(** X7: outside the game-over state a jump sets the velocity to -8 whatever
    it was (the impulse replaces the velocity, it is not added), leaves the
    position, the rotation, the collections, the counter and the scores as
    they are, and a second jump right after the first changes nothing
    more. *)
Theorem X7_jump_overrides_velocity (w : World) :
  gameState w <> gameOver ->
  gameState (jump w) = playing /\
  playerRef (jump w) =
    mkPlayer (player_x (playerRef w)) (player_y (playerRef w)) JUMP_STRENGTH
      (rotation (playerRef w)) /\
  (score (jump w), highScore (jump w), pipesRef (jump w), bulletsRef (jump w),
   frameCountRef (jump w)) =
  (score w, highScore w, pipesRef w, bulletsRef w, frameCountRef w) /\
  jump (jump w) = jump w.
Proof.
  intro Hg. unfold jump. destruct (gameState w) eqn:E; [| |congruence];
    cbn; rewrite ?E; repeat split.
Qed.

Lemma X7_jump_overrides_velocity_witness :
  gameState (run hoverRun) <> gameOver /\
  gameState (jump (run hoverRun)) = playing /\
  playerRef (jump (run hoverRun)) =
    mkPlayer (player_x (playerRef (run hoverRun)))
      (player_y (playerRef (run hoverRun))) JUMP_STRENGTH
      (rotation (playerRef (run hoverRun))) /\
  (score (jump (run hoverRun)), highScore (jump (run hoverRun)),
   pipesRef (jump (run hoverRun)), bulletsRef (jump (run hoverRun)),
   frameCountRef (jump (run hoverRun))) =
  (score (run hoverRun), highScore (run hoverRun), pipesRef (run hoverRun),
   bulletsRef (run hoverRun), frameCountRef (run hoverRun)) /\
  jump (jump (run hoverRun)) = jump (run hoverRun).
Proof.
  assert (H : gameState (run hoverRun) <> gameOver)
    by (vm_compute; discriminate).
  split; [exact H | apply (X7_jump_overrides_velocity (run hoverRun) H)].
Defined.

Lemma shoot_playing (w : World) :
  gameState w = playing ->
  shoot w =
  mkWorld playing (score w) (highScore w) (playerRef w) (pipesRef w)
    (bulletsRef w ++ [newBullet (playerRef w)]) (frameCountRef w).
Proof. intro Hg. unfold shoot, newBullet. now rewrite Hg. Qed.

(** X8: a shot outside the playing state does nothing. In the playing
    state [n] shots in a row append [n] bullets, all at twenty to the
    right of and ten below the player, and touch nothing else: there is no
    cooldown and no cap on the bullets in flight. *)
Theorem X8_shots_append_bullets (n : nat) (w : World) :
  (gameState w <> playing -> Nat.iter n shoot w = w) /\
  (gameState w = playing ->
   Nat.iter n shoot w =
   mkWorld playing (score w) (highScore w) (playerRef w) (pipesRef w)
     (bulletsRef w ++ repeat (newBullet (playerRef w)) n) (frameCountRef w)).
Proof.
  split; intro Hg.
  - induction n as [|n IH]; [reflexivity|]. cbn [Nat.iter]. simpl. rewrite IH.
    unfold shoot. destruct (gameState w); congruence.
  - induction n as [|n IH].
    + simpl. rewrite app_nil_r. destruct w; cbn in *. now subst.
    + simpl. rewrite IH. rewrite shoot_playing by reflexivity.
      cbn [score highScore playerRef pipesRef bulletsRef frameCountRef].
      rewrite <- app_assoc. f_equal. f_equal.
      change ([newBullet (playerRef w)]) with (repeat (newBullet (playerRef w)) 1).
      rewrite <- repeat_app. now rewrite Nat.add_1_r.
Qed.

(** ** What play does not depend on *)

Lemma step_withRotation (r : Q) (w : World) (e : Event) :
  withRotation 0 (step (withRotation r w) e) = withRotation 0 (step w e).
Proof.
  destruct w as [gs sc hs [px py v rot] pipes bullets fc].
  destruct e as [rnd | |]; destruct gs; reflexivity.
Qed.

Lemma withRotation_twice (r r' : Q) (w : World) :
  withRotation r (withRotation r' w) = withRotation r w.
Proof. reflexivity. Qed.

Lemma withRotation_own (w : World) :
  withRotation (rotation (playerRef w)) w = w.
Proof. now destruct w as [gs sc hs [px py v rot] pipes bullets fc]. Qed.

(** X9: the rotation is cosmetic: two worlds that differ only in the
    rotation of the player still differ at most in that rotation after any
    sequence of frames, jumps and shots. Phase, scores, positions,
    velocity, pipes, bullets and counter never depend on it. *)
Theorem X9_rotation_is_cosmetic (r : Q) (w : World) (es : list Event) :
  withRotation 0 (fold_left step es (withRotation r w)) =
  withRotation 0 (fold_left step es w).
Proof.
  revert r w. induction es as [|e es IH]; intros r w; [reflexivity|].
  cbn [fold_left].
  pose proof (step_withRotation r w e) as Hs.
  rewrite <- (withRotation_own (step (withRotation r w) e)).
  rewrite <- (withRotation_own (step w e)).
  rewrite <- (withRotation_twice _ 0 (step (withRotation r w) e)), Hs.
  rewrite withRotation_twice.
  rewrite (IH (rotation (playerRef (step (withRotation r w) e))) (step w e)).
  rewrite (IH (rotation (playerRef (step w e))) (step w e)).
  reflexivity.
Qed.

Lemma step_withHighScore (h : Z) (w : World) (e : Event) :
  withHighScore 0 (step (withHighScore h w) e) = withHighScore 0 (step w e).
Proof.
  destruct e as [rnd | |]; cbn [step].
  - destruct (gameState w) eqn:Hg.
    + rewrite !gameLoop_idle by (cbn; congruence). reflexivity.
    + rewrite (gameLoop_playing rnd w Hg).
      rewrite (gameLoop_playing rnd (withHighScore h w) Hg). reflexivity.
    + rewrite !gameLoop_idle by (cbn; congruence). reflexivity.
  - unfold jump. cbn [withHighScore gameState]. destruct (gameState w); reflexivity.
  - unfold shoot. cbn [withHighScore gameState]. destruct (gameState w); reflexivity.
Qed.

Lemma withHighScore_twice (h h' : Z) (w : World) :
  withHighScore h (withHighScore h' w) = withHighScore h w.
Proof. reflexivity. Qed.

Lemma withHighScore_own (w : World) : withHighScore (highScore w) w = w.
Proof. now destruct w. Qed.

(** X10: the session best never influences play: two worlds that differ
    only in [highScore] differ only in [highScore] after any sequence of
    events. In particular the round after a restart runs exactly as the
    first round of the session does. *)
Theorem X10_highScore_never_read_by_play (h : Z) (w : World) (es : list Event) :
  withHighScore 0 (fold_left step es (withHighScore h w)) =
  withHighScore 0 (fold_left step es w) /\
  withHighScore 0 (fold_left step es (restartedWorld h)) =
  withHighScore 0 (run es).
Proof.
  assert (G : forall es h w,
             withHighScore 0 (fold_left step es (withHighScore h w)) =
             withHighScore 0 (fold_left step es w)).
  { clear. induction es as [|e es IH]; intros h w; [reflexivity|].
    cbn [fold_left].
    pose proof (step_withHighScore h w e) as Hs.
    rewrite <- (withHighScore_own (step (withHighScore h w) e)).
    rewrite <- (withHighScore_own (step w e)).
    rewrite <- (withHighScore_twice _ 0 (step (withHighScore h w) e)), Hs.
    rewrite withHighScore_twice.
    rewrite (IH (highScore (step (withHighScore h w) e)) (step w e)).
    rewrite (IH (highScore (step w e)) (step w e)).
    reflexivity. }
  split; [apply G|]. unfold restartedWorld, run. apply G.
Qed.

(** The world a jump leaves on the game-over screen is [restartedWorld]. *)
Lemma jump_restartedWorld (w : World) :
  gameState w = gameOver -> jump w = restartedWorld (highScore w).
Proof. intro Hg. unfold jump. now rewrite Hg. Qed.

(** ** The collections along a run *)

Lemma moveBullet_active (b : Bullet) : active (moveBullet b) = active b.
Proof. reflexivity. Qed.

Lemma bullets_step (w : World) (e : Event) :
  Inv w -> Forall bulletInField (bulletsRef w) ->
  Forall bulletInField (bulletsRef (step w e)).
Proof.
  intros HI HB. destruct e as [rnd | |]; cbn [step].
  - destruct (gameState w) eqn:Hg.
    + rewrite gameLoop_idle by congruence. exact HB.
    + rewrite (gameLoop_playing rnd w Hg). cbn [bulletsRef].
      rewrite Forall_forall in *. intros b' Hin.
      destruct (updateBullets_clean _ _ b' Hin) as [Hlt _].
      apply updateBullets_kept in Hin. destruct Hin as (b & Hb & ->).
      destruct (HB b Hb) as (H1 & H2 & H3).
      split; [|split; [exact Hlt | now rewrite moveBullet_active]].
      cbn [moveBullet bullet_x]. unfold BULLET_SPEED. num_lra.
    + rewrite gameLoop_idle by congruence. exact HB.
  - unfold jump. destruct (gameState w); cbn; try exact HB. constructor.
  - unfold shoot. destruct (gameState w); try exact HB.
    cbn [bulletsRef]. apply Forall_app. split; [exact HB|].
    constructor; [|constructor]. unfold bulletInField, GAME_WIDTH.
    cbn [bullet_x active]. rewrite (inv_player w HI).
    repeat split; num_lra.
Qed.

(** X11: in every world a run reaches, every bullet of the collection is
    inside the play-field, at x between 100 (where [shoot] creates it) and
    400, and its [active] flag is [true]: the flag is never cleared, a
    bullet that is spent or has left is simply no longer in the
    collection. *)
Theorem X11_bullets_in_field (es : list Event) :
  Forall bulletInField (bulletsRef (run es)).
Proof.
  unfold run.
  assert (G : forall es w, Inv w -> Forall bulletInField (bulletsRef w) ->
                           Forall bulletInField (bulletsRef (fold_left step es w))).
  { clear. induction es as [|e es IH]; intros w HI HB; [exact HB|].
    cbn [fold_left]. apply IH; [now apply Inv_step | now apply bullets_step]. }
  apply G; [exact Inv_initialWorld | constructor].
Qed.

Lemma scrollPipe_gap (player : Player) (p : Pipe) : gap (scrollPipe player p) = gap p.
Proof. unfold scrollPipe. now destruct (justPassed player (movePipe p)). Qed.

Lemma pipes_step (w : World) (e : Event) :
  Inv w -> Forall pipeInField (pipesRef w) ->
  Forall pipeInField (pipesRef (step w e)) /\ Inv (step w e).
Proof.
  intros HI HP. split; [|now apply Inv_step].
  assert (Hinv : Inv (step w e)) by now apply Inv_step.
  destruct e as [rnd | |]; cbn [step] in *.
  - destruct (gameState w) eqn:Hg.
    + rewrite gameLoop_idle by congruence. exact HP.
    + pose proof (inv_bound _ Hinv) as Hb. pose proof (inv_frames _ Hinv) as Hf.
      rewrite (gameLoop_playing rnd w Hg) in *.
      cbn [pipesRef frameCountRef] in *.
      rewrite Forall_forall in *. intros q Hq.
      specialize (Hb q Hq). cbn beta in Hb.
      pose proof (rem_nonneg _ Hf) as Hr.
      unfold survivors, scrolledPipes in Hq.
      apply filter_In in Hq. destruct Hq as [Hq _].
      apply filter_In in Hq. destruct Hq as [Hq Hon].
      apply in_map_iff in Hq. destruct Hq as (p & <- & Hp).
      unfold onScreen in Hon. apply Qgtb_true in Hon.
      split; [exact Hon|]. split.
      * set (k := inject_Z _) in *. num_lra.
      * rewrite scrollPipe_gap. unfold spawned, spawnPipes in Hp.
        destruct (Z.rem _ _ =? 0)%Z.
        -- apply in_app_or in Hp. destruct Hp as [Hp | [<- | []]].
           ++ apply (HP p Hp).
           ++ reflexivity.
        -- apply (HP p Hp).
    + rewrite gameLoop_idle by congruence. exact HP.
  - unfold jump. destruct (gameState w); cbn; try exact HP. constructor.
  - unfold shoot. destruct (gameState w); exact HP.
Qed.

Lemma pipes_in_field_run (es : list Event) : Forall pipeInField (pipesRef (run es)).
Proof.
  unfold run.
  assert (G : forall es w, Inv w -> Forall pipeInField (pipesRef w) ->
                           Forall pipeInField (pipesRef (fold_left step es w))).
  { clear. induction es as [|e es IH]; intros w HI HP; [exact HP|].
    cbn [fold_left]. destruct (pipes_step w e HI HP) as [HP' HI'].
    now apply IH. }
  apply G; [exact Inv_initialWorld | constructor].
Qed.

(** X12: in every world a run reaches there are at most two pipes; each is
    at an x above -60 and at most 398, each has the gap 120, and a later
    pipe of the collection is at least 300 to the right of an earlier
    one. *)
Theorem X12_at_most_two_pipes (es : list Event) :
  (length (pipesRef (run es)) <= 2)%nat /\
  Forall pipeInField (pipesRef (run es)) /\
  spaced (pipesRef (run es)).
Proof.
  pose proof (pipes_in_field_run es) as HP.
  pose proof (inv_spaced _ (Inv_run es)) as HS.
  split; [|split; assumption].
  destruct (pipesRef (run es)) as [|p1 [|p2 [|p3 rest]]]; cbn [length]; try lia.
  exfalso.
  inversion HS as [|? ? H1 HS1]; subst.
  inversion HS1 as [|? ? H2 HS2]; subst.
  inversion H1 as [|? ? H12 _]; subst.
  inversion H2 as [|? ? H23 _]; subst.
  inversion HP as [|? ? (Hp1 & _) HP1]; subst.
  inversion HP1 as [|? ? _ HP2]; subst.
  inversion HP2 as [|? ? (_ & Hp3 & _) _]; subst.
  num_lra.
Qed.

(** ** The scores along a run *)

Lemma step_highScore_le_max (w : World) (e : Event) :
  (highScore (step w e) <= Z.max (highScore w) (score w))%Z.
Proof.
  destruct e as [rnd | |]; cbn [step].
  - destruct (gameState w) eqn:Hg.
    + rewrite gameLoop_idle by congruence. lia.
    + rewrite (frame_highScore rnd w Hg). destruct (crashed rnd w); lia.
    + rewrite gameLoop_idle by congruence. lia.
  - unfold jump. destruct (gameState w); cbn; lia.
  - unfold shoot. destruct (gameState w); cbn; lia.
Qed.

(** X13: [highScore] changes only in a frame that ends a round, and only
    when the score that frame started with is larger: it then becomes that
    score. Jumps (the restart included), shots and all other frames leave
    it as it is. *)
Theorem X13_highScore_written_at_game_over (w : World) (e : Event) :
  highScore (step w e) = highScore w \/
  (highScore (step w e) = score w /\ (highScore w < score w)%Z /\
   gameState w = playing /\ gameState (step w e) = gameOver /\
   exists rnd, e = Frame rnd).
Proof.
  destruct e as [rnd | |]; cbn [step].
  - destruct (gameState w) eqn:Hg.
    + rewrite gameLoop_idle by congruence. now left.
    + rewrite (gameLoop_playing rnd w Hg). cbn [highScore gameState].
      destruct (crashed rnd w); cbn [andb]; [|now left].
      destruct (score w >? highScore w)%Z eqn:E; [|now left].
      right. repeat split; try lia. now exists rnd.
    + rewrite gameLoop_idle by congruence. now left.
  - left. unfold jump. destruct (gameState w); reflexivity.
  - left. unfold shoot. destruct (gameState w); reflexivity.
Qed.

Lemma fold_highScore_nondecreasing (es : list Event) (w : World) :
  (highScore w <= highScore (fold_left step es w))%Z.
Proof.
  revert w. induction es as [|e es IH]; intro w; [cbn; lia|].
  cbn [fold_left]. pose proof (step_highScore_nondecreasing w e).
  specialize (IH (step w e)). lia.
Qed.

Lemma fold_highScore_bound (es : list Event) (w : World) (m : Z) :
  (highScore w <= m)%Z ->
  (highScore (fold_left step es w) <= Z.max m (bestScore w es))%Z.
Proof.
  revert w m. induction es as [|e es IH]; intros w m Hm; [cbn; lia|].
  cbn [fold_left bestScore].
  assert (H : (highScore (step w e) <= Z.max m (score w))%Z).
  { pose proof (step_highScore_le_max w e). lia. }
  specialize (IH (step w e) _ H). lia.
Qed.

Lemma step_score_nonneg (w : World) (e : Event) :
  (0 <= score w)%Z -> (0 <= score (step w e))%Z.
Proof.
  intro H. destruct e as [rnd | |]; cbn [step].
  - pose proof (frame_score_nondecreasing rnd w). lia.
  - unfold jump. destruct (gameState w); cbn; lia.
  - unfold shoot. destruct (gameState w); cbn; lia.
Qed.

Lemma fold_score_nonneg (es : list Event) (w : World) :
  (0 <= score w)%Z -> (0 <= score (fold_left step es w))%Z.
Proof.
  revert w. induction es as [|e es IH]; intros w Hw; [exact Hw|].
  cbn [fold_left]. apply IH, step_score_nonneg, Hw.
Qed.

(** X14: along every run the session best never decreases, whatever
    events follow, and it never exceeds the largest score the run has gone
    through; score and session best are never negative. *)
Theorem X14_highScore_monotone_and_bounded (es es' : list Event) :
  (highScore (run es) <= highScore (run (es ++ es')))%Z /\
  (highScore (run es) <= bestScore initialWorld es)%Z /\
  (0 <= score (run es))%Z /\ (0 <= highScore (run es))%Z.
Proof.
  split; [|split; [|split]].
  - unfold run. rewrite fold_left_app. apply fold_highScore_nondecreasing.
  - unfold run.
    pose proof (fold_highScore_bound es initialWorld 0 ltac:(cbn; lia)) as H.
    assert (H0 : (0 <= bestScore initialWorld es)%Z).
    { destruct es; cbn [bestScore]; cbn [initialWorld score]; lia. }
    lia.
  - unfold run. apply fold_score_nonneg. cbn. lia.
  - pose proof (fold_highScore_nondecreasing es initialWorld) as H.
    cbn [initialWorld highScore] in H. exact H.
Qed.

(** ** Frames without input *)



(** ** The player while the round is on *)

Lemma playerHitsPipe_scrolled (player player' : Player) (p : Pipe) :
  playerHitsPipe player (scrollPipe player' p) = playerHitsPipe player (movePipe p).
Proof.
  unfold playerHitsPipe. destruct (scrollPipe_rects player' p) as [-> ->].
  reflexivity.
Qed.

Lemma playerHitsPipe_velocity (v : Q) (player : Player) (p : Pipe) :
  playerHitsPipe (setVelocity v player) p = playerHitsPipe player p.
Proof. reflexivity. Qed.

Lemma playerSafe_step (w : World) (e : Event) :
  (gameState w <> gameOver -> playerSafe w) ->
  gameState (step w e) <> gameOver -> playerSafe (step w e).
Proof.
  intros HS Hg'. destruct e as [rnd | |]; cbn [step] in *.
  - destruct (gameState w) eqn:Hg.
    + rewrite gameLoop_idle in * by congruence. apply HS. congruence.
    + rewrite (gameLoop_playing rnd w Hg) in *.
      cbn [gameState] in Hg'. unfold crashed in Hg'.
      destruct (outOfBounds (movedPlayer w)) eqn:Eb; [now cbn in Hg'|].
      destruct (hitsSomePipe (movedPlayer w) (spawned rnd w)) eqn:Eh;
        [now cbn in Hg'|].
      unfold playerSafe. cbn [playerRef pipesRef].
      assert (Hy : ~ (560 < player_y (movedPlayer w) \/ player_y (movedPlayer w) < 0)).
      { intro H. apply outOfBounds_iff in H. congruence. }
      split; [|split].
      * apply Qnot_lt_le. tauto.
      * apply Qnot_lt_le. tauto.
      * rewrite Forall_forall. intros q Hq.
        unfold survivors, scrolledPipes in Hq.
        apply filter_In in Hq. destruct Hq as [Hq _].
        apply filter_In in Hq. destruct Hq as [Hq _].
        apply in_map_iff in Hq. destruct Hq as (p & <- & Hp).
        rewrite playerHitsPipe_scrolled.
        destruct (playerHitsPipe (movedPlayer w) (movePipe p)) eqn:E;
          [|reflexivity].
        assert (hitsSomePipe (movedPlayer w) (spawned rnd w) = true)
          by (apply hitsSomePipe_iff; eauto).
        congruence.
    + rewrite gameLoop_idle in * by congruence. congruence.
  - unfold jump in *. destruct (gameState w) eqn:Hg.
    + destruct (HS ltac:(congruence)) as (H1 & H2 & H3).
      unfold playerSafe. cbn. repeat split; assumption.
    + destruct (HS ltac:(congruence)) as (H1 & H2 & H3).
      unfold playerSafe. cbn. repeat split; assumption.
    + unfold playerSafe. cbn. repeat split; try constructor; discriminate.
  - unfold shoot in *. destruct (gameState w) eqn:Hg; apply HS; congruence.
Qed.

(** X16: in every world a run reaches, unless the state is game over, the
    player is inside the bounds the frame tests (0 <= y <= 560) and its
    hitbox intersects no pipe of the collection: a frame that leaves the
    player out of bounds or in a pipe always ends the round. *)
Theorem X16_live_player_is_safe (es : list Event) :
  gameState (run es) <> gameOver -> playerSafe (run es).
Proof.
  unfold run.
  assert (G : forall es w, (gameState w <> gameOver -> playerSafe w) ->
                           gameState (fold_left step es w) <> gameOver ->
                           playerSafe (fold_left step es w)).
  { clear. induction es as [|e es IH]; intros w HS; [exact HS|].
    cbn [fold_left]. apply IH. apply playerSafe_step, HS. }
  apply G. intros _. unfold playerSafe. cbn.
  repeat split; try constructor; discriminate.
Qed.

Lemma X16_live_player_is_safe_witness :
  gameState (run crashRun) <> gameOver /\ playerSafe (run crashRun).
Proof.
  assert (H : gameState (run crashRun) <> gameOver)
    by (rewrite crashRun_playing; discriminate).
  split; [exact H | apply (X16_live_player_is_safe crashRun H)].
Defined.

(** ** The input handlers *)

(** X17: the two input handlers. A touch is a shot when it lands strictly
    right of the middle of the canvas (more than 200 from its left edge)
    and a jump otherwise, a touch exactly on the middle included; without a
    canvas a touch does nothing. Of all key codes only four act: Space and
    ArrowUp are a jump, KeyZ and Enter are a shot, every other code leaves
    the world as it is, and no code does both. No input changes the
    session best. *)
Theorem X17_input_dispatch (code : string) (rectLeft clientX : Q) (w : World) :
  (handleTouch None clientX w = w /\
   (200 < clientX - rectLeft -> handleTouch (Some rectLeft) clientX w = shoot w) /\
   (clientX - rectLeft <= 200 -> handleTouch (Some rectLeft) clientX w = jump w)) /\
  ((code = "Space"%string \/ code = "ArrowUp"%string ->
    handleKeyDown code w = jump w) /\
   (code = "KeyZ"%string \/ code = "Enter"%string ->
    handleKeyDown code w = shoot w) /\
   (code <> "Space"%string -> code <> "ArrowUp"%string ->
    code <> "KeyZ"%string -> code <> "Enter"%string ->
    handleKeyDown code w = w)) /\
  highScore (handleKeyDown code w) = highScore w /\
  highScore (handleTouch (Some rectLeft) clientX w) = highScore w.
Proof.
  assert (Hj : highScore (jump w) = highScore w)
    by (unfold jump; destruct (gameState w); reflexivity).
  assert (Hs : forall w', highScore (shoot w') = highScore w')
    by (intro w'; unfold shoot; destruct (gameState w'); reflexivity).
  split; [|split; [|split]].
  - unfold handleTouch. change (numDiv GAME_WIDTH 2) with 200.
    split; [reflexivity|]. split; intro H.
    + apply Qgtb_true in H. now rewrite H.
    + apply Qgtb_false in H. now rewrite H.
  - unfold handleKeyDown. split; [|split].
    + intros [-> | ->]; reflexivity.
    + intros [-> | ->]; reflexivity.
    + intros H1 H2 H3 H4.
      apply String.eqb_neq in H1, H2, H3, H4. now rewrite H1, H2, H3, H4.
  - unfold handleKeyDown.
    destruct (String.eqb code "Space" || String.eqb code "ArrowUp");
      destruct (String.eqb code "KeyZ" || String.eqb code "Enter");
      rewrite ?Hs, ?Hj; reflexivity.
  - unfold handleTouch. destruct (_ >? _); [apply Hs | apply Hj].
Qed.

(** ** What a frame does to the entities that stay *)

Lemma subseq_filter {A : Type} (f : A -> bool) (l : list A) : subseq (filter f l) l.
Proof.
  induction l as [|a l IH]; [constructor|]. cbn [filter].
  destruct (f a); now constructor.
Qed.

Lemma keptBullets_subseq (bullets : list Bullet) (pipes : list Pipe) :
  subseq (keptBullets bullets pipes) (map moveBullet bullets).
Proof.
  revert pipes. induction bullets as [|b rest IH]; intro pipes; [constructor|].
  rewrite keptBullets_one. cbn [map].
  destruct (leftField (moveBullet b) || existsb (bulletHitsPipe (moveBullet b)) pipes);
    cbn [app]; constructor; apply IH.
Qed.

Lemma scrollPipe_heights (player : Player) (p : Pipe) :
  topHeight (scrollPipe player p) = topHeight p /\ gap (scrollPipe player p) = gap p.
Proof. unfold scrollPipe. now destruct (justPassed player (movePipe p)). Qed.

(** X18: a frame in the playing state never reorders, duplicates or creates
    entities apart from the spawned pipe: the bullets that stay are, in
    their order, bullets of the collection moved 8 to the right with their
    height and flag unchanged, and the pipes that stay are, in their order,
    pipes of the collection (the spawned one last) moved 2 to the left with
    their top height and gap unchanged. *)
Theorem X18_frame_keeps_order (rnd : Q) (w : World) :
  gameState w = playing ->
  subseq (bulletsRef (gameLoop rnd w)) (map moveBullet (bulletsRef w)) /\
  subseq (pipesRef (gameLoop rnd w))
    (map (scrollPipe (movedPlayer w)) (spawned rnd w)) /\
  (forall b, bullet_x (moveBullet b) = bullet_x b + 8 /\
             bullet_y (moveBullet b) = bullet_y b /\
             active (moveBullet b) = active b) /\
  (forall player p, pipe_x (scrollPipe player p) = pipe_x p - 2 /\
                    topHeight (scrollPipe player p) = topHeight p /\
                    gap (scrollPipe player p) = gap p).
Proof.
  intro Hp. rewrite (gameLoop_playing rnd w Hp). cbn [bulletsRef pipesRef].
  split; [|split; [|split]].
  - apply keptBullets_subseq.
  - unfold survivors, scrolledPipes. rewrite filter_filter. apply subseq_filter.
  - intro b. repeat split.
  - intros player p. destruct (scrollPipe_heights player p) as [H1 H2].
    split; [apply scrollPipe_x | now split].
Qed.

Lemma X18_frame_keeps_order_witness :
  gameState (run crashRun) = playing /\
  (subseq (bulletsRef (gameLoop 0 (run crashRun)))
     (map moveBullet (bulletsRef (run crashRun))) /\
   subseq (pipesRef (gameLoop 0 (run crashRun)))
     (map (scrollPipe (movedPlayer (run crashRun))) (spawned 0 (run crashRun))) /\
   (forall b, bullet_x (moveBullet b) = bullet_x b + 8 /\
              bullet_y (moveBullet b) = bullet_y b /\
              active (moveBullet b) = active b) /\
   (forall player p, pipe_x (scrollPipe player p) = pipe_x p - 2 /\
                     topHeight (scrollPipe player p) = topHeight p /\
                     gap (scrollPipe player p) = gap p)).
Proof.
  split; [exact crashRun_playing |
          apply (X18_frame_keeps_order 0 (run crashRun)); exact crashRun_playing].
Defined.
